(** * supagraph: the Mongo store adapter and the block-listener pipeline

    A shallow embedding of
    - [src/sync/tooling/persistence/mongo.ts] (class [Mongo]: [get], [put],
      [del], [batch]) and
    - the listener module ([attemptNextBlock], [recordListenerBlock],
      [restackListenerBlock], [startProcessingBlock],
      [processListenerBlockSafely], [getReceipt],
      [awaitListenerBlockAndReceipts]),
    followed by the properties of the specification stated over it. *)

From Stdlib Require Import ZArith NArith String Ascii List.
From stdpp Require Import base option gmap strings list sorting.

Local Open Scope Z_scope.

(** ** JavaScript values and objects *)

(** The scalar values a store record can carry in one of its fields. *)
Inductive jval :=
  | JUndef
  | JNull
  | JBool (b : bool)
  | JNum (n : Z)
  | JStr (s : string).

#[global] Instance jval_eq_dec : EqDecision jval.
Proof. solve_decision. Defined.

(** A record ([Record<string, unknown>]) is a finite map from field names to
    values. *)
Abbreviation doc := (gmap string jval).

(** [o?.[k]]: reading a field that is not there gives [undefined]. *)
Definition fld (o : doc) (k : string) : jval := default JUndef (o !! k).

(** [s.split(".")]: always at least one piece. *)
Fixpoint split_dot (s : string) : list string :=
  match s with
  | EmptyString => [EmptyString]
  | String c r =>
      if Ascii.eqb c "."%char then EmptyString :: split_dot r
      else match split_dot r with
           | h :: t => String c h :: t
           | [] => [String c EmptyString]
           end
  end.

(** Truthiness of a string ([""] is falsy) and of a possibly [undefined]
    string. *)
Definition truthy (s : string) : bool := negb (String.eqb s EmptyString).
Definition truthy_opt (s : option string) : bool :=
  match s with Some s => truthy s | None => false end.

(** A property key built from a possibly [undefined] value: [o[undefined]]
    addresses the property named ["undefined"]. *)
Definition prop_key (s : option string) : string := default "undefined"%string s.

(** ** The document store behind the adapter

    The driver calls the adapter makes, on a collection held as the list of
    its documents in natural (insertion) order. *)

(** An equality filter [{k1: v1, ...}]. *)
Definition filter_t := list (string * jval).

(** On the wire [undefined] is written as [null]. *)
Definition bson (v : jval) : jval :=
  match v with JUndef => JNull | _ => v end.

Definition bson_doc (d : doc) : doc := bson <$> d.

(** A field of a stored document as a query sees it: [null] when missing. *)
Definition stored (d : doc) (k : string) : jval :=
  bson (default JNull (d !! k)).

Definition matches (f : filter_t) (d : doc) : bool :=
  forallb (fun kv : string * jval => bool_decide (stored d kv.1 = bson kv.2)) f.

(** Sort key of a value in the comparison order of the store:
    null < numbers < strings < booleans; strings compare by code points. *)
Definition codes (s : string) : list Z :=
  (fun a => Z.of_N (N_of_ascii a)) <$> list_ascii_of_string s.

Definition sort_key (v : jval) : list Z :=
  match v with
  | JUndef | JNull => [0]
  | JNum n => [1; n]
  | JStr s => 2 :: codes s
  | JBool b => [3; if b then 1 else 0]
  end.

Fixpoint lex_leb (a b : list Z) : bool :=
  match a, b with
  | [], _ => true
  | _ :: _, [] => false
  | x :: a', y :: b' => (x <? y) || ((x =? y) && lex_leb a' b')
  end.

Definition block_ts (d : doc) : jval := stored d "_block_ts".

(** [ts_leb d1 d2]: [d1] is not newer than [d2]. *)
Definition ts_leb (d1 d2 : doc) : bool :=
  lex_leb (sort_key (block_ts d1)) (sort_key (block_ts d2)).

(** [newer_first a b]: [a] may stand before [b] in a list sorted newest
    first. *)
Definition newer_first (a b : doc) : Prop := ts_leb b a = true.

(** [{ $sort: { _block_ts: -1 } }] as a stable insertion sort, newest first. *)
Fixpoint insert_desc (d : doc) (l : list doc) : list doc :=
  match l with
  | [] => [d]
  | e :: l' => if ts_leb e d then d :: l else e :: insert_desc d l'
  end.

Definition sort_desc (l : list doc) : list doc :=
  foldr insert_desc [] l.

(** [findOne(f, { sort: { _block_ts: -1 } })]. *)
Definition findOne (f : filter_t) (docs : list doc) : option doc :=
  head (sort_desc (List.filter (matches f) docs)).

(** [replaceOne(f, r, { upsert: true })]: the first match is replaced; with no
    match the replacement is inserted. *)
Fixpoint replace_first (f : filter_t) (r : doc) (docs : list doc)
  : option (list doc) :=
  match docs with
  | [] => None
  | d :: ds => if matches f d then Some (r :: ds)
               else cons d <$> replace_first f r ds
  end.

Definition replaceOne (f : filter_t) (r : doc) (docs : list doc) : list doc :=
  default (docs ++ [bson_doc r]) (replace_first f (bson_doc r) docs).

(** [deleteOne(f)]: the first match goes. *)
Fixpoint deleteOne (f : filter_t) (docs : list doc) : list doc :=
  match docs with
  | [] => []
  | d :: ds => if matches f d then ds else d :: deleteOne f ds
  end.

(** [deleteMany(f)]: every match goes. *)
Definition deleteMany (f : filter_t) (docs : list doc) : list doc :=
  List.filter (fun d => negb (matches f d)) docs.

(** The operations of a [bulkWrite]. *)
Inductive bulk_op :=
  | ReplaceOneOp (f : filter_t) (replacement : doc)
  | DeleteManyOp (f : filter_t).

Definition apply_bulk_op (docs : list doc) (o : bulk_op) : list doc :=
  match o with
  | ReplaceOneOp f r => replaceOne f r docs
  | DeleteManyOp f => deleteMany f docs
  end.

(** [bulkWrite(ops, { ordered: false })], taken in the order of the array. *)
Definition bulkWrite (ops : list bulk_op) (docs : list doc) : list doc :=
  foldl apply_bulk_op docs ops.

(** The aggregation stages used by the collection scan:
    [$group: { _id: "$id", latestDocument: { $first: "$$ROOT" } }] followed by
    [$replaceRoot], groups in order of first appearance. *)
Definition id_of (d : doc) : jval := stored d "id".

Fixpoint group_first (seen : list jval) (docs : list doc) : list doc :=
  match docs with
  | [] => []
  | d :: ds => if bool_decide (id_of d ∈ seen) then group_first seen ds
               else d :: group_first (id_of d :: seen) ds
  end.

Definition latest_view (docs : list doc) : list doc :=
  group_first [] (sort_desc docs).

(** The durable writes the adapter hands to the driver, by collection. *)
Inductive write :=
  | WReplaceOne (c : string) (f : filter_t) (r : doc)
  | WDeleteOne (c : string) (f : filter_t)
  | WBulkWrite (c : string) (ops : list bulk_op).

(** ** The adapter *)

Record Engine := mkEngine {
  newDb : bool;
  warmDb : bool;
  readOnly : bool
}.

Record Mongo := mkMongo {
  kv : gmap string (gmap string doc);   (* hot cache, by ref then id *)
  engine : Engine;
  mutable : bool;
  db : gmap string (list doc);          (* the collections of the database *)
  writes : list write                   (* durable writes issued so far *)
}.

(** [db.collection(ref)]: a collection that was never written is empty. *)
Definition collection (m : Mongo) (ref : string) : list doc :=
  default [] (db m !! ref).

Definition set_kv (k : gmap string (gmap string doc)) (m : Mongo) : Mongo :=
  mkMongo k (engine m) (mutable m) (db m) (writes m).

Definition durable_write (w : write) (c : string) (docs : list doc) (m : Mongo)
  : Mongo :=
  mkMongo (kv m) (engine m) (mutable m) (<[c := docs]> (db m)) (writes m ++ [w]).

(** [this.kv[ref] = this.kv[ref] || {}] *)
Definition kv_default (ref : string) (k : gmap string (gmap string doc))
  : gmap string (gmap string doc) :=
  match k !! ref with
  | Some _ => k
  | None => <[ref := ∅]> k
  end.

(** [this.kv[ref][id] = val] and [delete this.kv[ref][id]]; both follow a
    [kv_default ref], so the inner object is there. *)
Definition kv_set (ref id : string) (val : doc)
    (k : gmap string (gmap string doc)) : gmap string (gmap string doc) :=
  alter (insert id val) ref k.

Definition kv_delete (ref id : string) (k : gmap string (gmap string doc))
  : gmap string (gmap string doc) :=
  alter (delete id) ref k.

(** [this.kv[ref]?.[id]] *)
Definition cached (k : gmap string (gmap string doc)) (ref id : string)
  : option doc :=
  match k !! ref with
  | Some entries => entries !! id
  | None => None
  end.

Definition META : string := "__meta__".

(** The filter of an upsert: by [id] alone for a mutable collection and for
    [__meta__], by [id] and the block fields of the value otherwise. *)
Definition put_filter (is_mutable : bool) (ref : string) (id : jval) (val : doc)
  : filter_t :=
  ("id"%string, id) ::
  (if is_mutable || String.eqb ref META then []
   else [("_block_ts"%string, fld val "_block_ts");
         ("_block_num"%string, fld val "_block_num");
         ("_chain_id"%string, fld val "_chain_id")]).

(** What [get] produces: one record, a list of records, or the [NotFound]
    exception. *)
Inductive get_result :=
  | Found (d : doc)
  | FoundAll (ds : list doc)
  | NotFound.

Definition batchSize : nat := 5000.

(** The paging loop of the collection scan: [while (skip < total)] fetch
    [$skip: skip, $limit: batchSize] of the view and move [skip] along. Each
    round advances [skip], so [total] rounds of fuel are never used up. *)
Fixpoint page_loop (fuel : nat) (skip total : nat) (view : list doc)
  : list doc :=
  match fuel with
  | O => []
  | S fuel' =>
      if (skip <? total)%nat
      then take batchSize (drop skip view)
           ++ page_loop fuel' (skip + batchSize) total view
      else []
  end.

Definition get (key : string) (m : Mongo) : get_result :=
  let parts := split_dot key in
  let ref := hd EmptyString parts in
  let id := parts !! 1%nat in
  let reads_db := negb (newDb (engine m))
                  && (negb (warmDb (engine m)) || String.eqb ref META) in
  match (if truthy ref && truthy_opt id
         then cached (kv m) ref (prop_key id) else None) with
  | Some val => Found val
  | None =>
    match (if truthy ref && truthy_opt id && reads_db
           then findOne [("id"%string, JStr (prop_key id))] (collection m ref)
           else None) with
    | Some result => Found result
    | None =>
      if truthy ref && negb (truthy_opt id) && reads_db then
        if negb (mutable m) && negb (String.eqb ref META) then
          let view := latest_view (collection m ref) in
          let totalCountResult := length view in
          let result := page_loop totalCountResult 0 totalCountResult view in
          match result with
          | [] => NotFound
          | _ => FoundAll result
          end
        else
          match collection m ref with
          | [] => NotFound
          | result => FoundAll result
          end
      else if truthy ref && negb (truthy_opt id) then
        match kv m !! ref with
        | Some val => FoundAll (snd <$> map_to_list val)
        | None => NotFound
        end
      else NotFound
    end
  end.

Definition put (key : string) (val : doc) (m : Mongo) : bool * Mongo :=
  let parts := split_dot key in
  let ref := hd EmptyString parts in
  let id := parts !! 1%nat in
  let m := set_kv (kv_default ref (kv m)) m in
  if truthy ref && truthy_opt id then
    let m := set_kv (kv_set ref (prop_key id) val (kv m)) m in
    if negb (readOnly (engine m)) then
      let f := put_filter (mutable m) ref (JStr (prop_key id)) val in
      (true, durable_write (WReplaceOne ref f val) ref
               (replaceOne f val (collection m ref)) m)
    else (true, m)
  else (true, m).

(** The value of an expression that calls an asynchronous driver method: the
    settled result when the call is awaited, the promise itself when it is
    not. *)
Inductive async_value :=
  | Awaited (result : option doc)
  | Pending (eventually : option doc).

(** A promise is an object, hence truthy; an awaited [findOne] is truthy when
    it found a document. *)
Definition async_truthy (v : async_value) : bool :=
  match v with
  | Awaited r => bool_decide (is_Some r)
  | Pending _ => true
  end.

(** The filter the driver makes of a value: the own enumerable fields of the
    object. A promise has none. *)
Definition as_filter (v : async_value) : filter_t :=
  match v with
  | Awaited (Some d) => map_to_list d
  | Awaited None => []
  | Pending _ => []
  end.

Definition del (key : string) (m : Mongo) : bool * Mongo :=
  let parts := split_dot key in
  let ref := hd EmptyString parts in
  let id := parts !! 1%nat in
  let m := set_kv (kv_default ref (kv m)) m in
  if truthy ref && truthy_opt id then
    let m := set_kv (kv_delete ref (prop_key id) (kv m)) m in
    if negb (readOnly (engine m)) then
      (* const document = collection.findOne(...): no await *)
      let document :=
        Pending (findOne [("id"%string, JStr (prop_key id))] (collection m ref)) in
      if async_truthy document then
        (true, durable_write (WDeleteOne ref (as_filter document)) ref
                 (deleteOne (as_filter document) (collection m ref)) m)
      else (true, m)
    else (true, m)
  else (true, m).

(** *** batch *)

Inductive op_type := OpPut | OpDel.

#[global] Instance op_type_eq_dec : EqDecision op_type.
Proof. solve_decision. Defined.

Record BatchOp := mkOp {
  type : op_type;
  key : string;
  value : option doc   (* [None]: the value is missing or otherwise falsy *)
}.

(** A plain object with string keys, in insertion order. *)
Definition obj (V : Type) := list (string * V).

Definition obj_get {V} (k : string) (o : obj V) : option V :=
  snd <$> List.find (fun p => String.eqb (fst p) k) o.

(** [o[k] = o[k] || v] for a [v] that is truthy. *)
Definition obj_default {V} (k : string) (v : V) (o : obj V) : obj V :=
  match obj_get k o with
  | Some _ => o
  | None => o ++ [(k, v)]
  end.

(** [o[k].push(x)] *)
Definition obj_push {V} (k : string) (x : V) (o : obj (list V)) : obj (list V) :=
  (fun p : string * list V =>
     if String.eqb (fst p) k then (fst p, snd p ++ [x]) else p) <$> o.

(** Keys that are array indices: the canonical decimal strings below
    2^32 - 1. *)
Definition digit (a : ascii) : option N :=
  let n := N_of_ascii a in
  if ((48 <=? n) && (n <=? 57))%N then Some (n - 48)%N else None.

Fixpoint digits (s : string) (acc : N) : option N :=
  match s with
  | EmptyString => Some acc
  | String a r => d ← digit a; digits r (acc * 10 + d)%N
  end.

Definition array_index (s : string) : option N :=
  match s with
  | EmptyString => None
  | String a r =>
      if Ascii.eqb a "0"%char
      then (if String.eqb r EmptyString then Some 0%N else None)
      else n ← digits s 0%N; if (n <? 2 ^ 32 - 1)%N then Some n else None
  end.

Definition index_le (a b : string) : Prop :=
  (default 0 (array_index a) <= default 0 (array_index b))%N.

#[global] Instance index_le_dec a b : Decision (index_le a b).
Proof. unfold index_le. apply _. Defined.

(** [Object.keys(o)]: array indices first, in ascending order, then the other
    keys in insertion order. *)
Definition object_keys {V} (o : obj V) : list string :=
  let ks := fst <$> o in
  merge_sort index_le (filter (fun k => is_Some (array_index k)) ks)
  ++ filter (fun k => ~ is_Some (array_index k)) ks.

Definition op_ref (val : BatchOp) : string := hd EmptyString (split_dot (key val)).
Definition op_id (val : BatchOp) : option string := split_dot (key val) !! 1%nat.

(** [val.type === "del" || val?.value] *)
Definition survives (val : BatchOp) : bool :=
  bool_decide (type val = OpDel) || bool_decide (is_Some (value val)).

(** The first pass of [batch]: the ops by collection, the hot cache given an
    entry for each collection that keeps an op. *)
Definition collect (acc : obj (list BatchOp) * gmap string (gmap string doc))
    (val : BatchOp) : obj (list BatchOp) * gmap string (gmap string doc) :=
  let ref := op_ref val in
  let collected := obj_default ref [] (fst acc) in
  if survives val
  then (obj_push ref val collected, kv_default ref (snd acc))
  else (collected, snd acc).

(** The replacement document of a put: the value without [_id], the block
    fields set from the value. *)
Definition replacement_of (v : option doc) : doc :=
  let v := default ∅ v in
  <["_chain_id"%string := fld v "_chain_id"]>
    (<["_block_num"%string := fld v "_block_num"]>
       (<["_block_ts"%string := fld v "_block_ts"]> (delete "_id"%string v))).

Definition id_value (id : option string) : jval :=
  match id with Some s => JStr s | None => JUndef end.

(** One step of the second pass: the bulk operations so far and the hot
    cache. *)
Definition assemble (is_mutable : bool) (collection : string)
    (acc : list bulk_op * gmap string (gmap string doc)) (val : BatchOp)
  : list bulk_op * gmap string (gmap string doc) :=
  match type val with
  | OpPut =>
      let replacement := replacement_of (value val) in
      (fst acc ++ [ReplaceOneOp
                     (put_filter is_mutable collection (id_value (op_id val))
                        (default ∅ (value val)))
                     replacement],
       kv_set collection (prop_key (op_id val)) replacement (snd acc))
  | OpDel =>
      (fst acc ++ [DeleteManyOp [("id"%string, id_value (op_id val))]],
       kv_delete collection (prop_key (op_id val)) (snd acc))
  end.

(** The body of the loop over [Object.keys(byCollection)]. *)
Definition batch_collection (byCollection : obj (list BatchOp)) (m : Mongo)
    (c : string) : Mongo :=
  let ops := default [] (obj_get c byCollection) in
  let r := foldl (assemble (mutable m) c) ([], kv m) ops in
  let m := set_kv (snd r) m in
  if negb (readOnly (engine m)) && negb (bool_decide (fst r = []))
  then durable_write (WBulkWrite c (fst r)) c (bulkWrite (fst r) (collection m c)) m
  else m.

Definition batch (vals : list BatchOp) (m : Mongo) : bool * Mongo :=
  let r := foldl collect ([], kv m) vals in
  let byCollection := fst r in
  let m := set_kv (snd r) m in
  (true, foldl (batch_collection byCollection) m (object_keys byCollection)).

(** *** What a batch comes to, collection by collection *)

(** The ops of a batch that are kept for collection [c], in order. *)
Definition ops_of (c : string) (vals : list BatchOp) : list BatchOp :=
  filter (fun v => survives v = true /\ op_ref v = c) vals.

(** The bulk operation an op becomes. *)
Definition bulk_of (is_mutable : bool) (c : string) (val : BatchOp) : bulk_op :=
  match type val with
  | OpPut =>
      ReplaceOneOp
        (put_filter is_mutable c (id_value (op_id val)) (default ∅ (value val)))
        (replacement_of (value val))
  | OpDel => DeleteManyOp [("id"%string, id_value (op_id val))]
  end.

(** What an op does to the cached entries of its collection. *)
Definition cache_of (val : BatchOp) (entries : gmap string doc)
  : gmap string doc :=
  match type val with
  | OpPut => <[prop_key (op_id val) := replacement_of (value val)]> entries
  | OpDel => delete (prop_key (op_id val)) entries
  end.


Definition write_collection (w : write) : string :=
  match w with
  | WReplaceOne c _ _ => c
  | WDeleteOne c _ => c
  | WBulkWrite c _ => c
  end.

(** The durable writes issued to collection [c]. *)
Definition writes_to (c : string) (ws : list write) : list write :=
  filter (fun w => write_collection w = c) ws.

(** The part of the store that belongs to collection [c]: its cached entries,
    its documents, the writes issued to it. *)
Definition view (c : string) (m : Mongo)
  : option (gmap string doc) * list doc * list write :=
  (kv m !! c, collection m c, writes_to c (writes m)).

(** What the loop body of [batch] does to the part of collection [c], for the
    ops [ops] kept for [c]. *)
Definition run_ops (ro is_mutable : bool) (c : string) (ops : list BatchOp)
    (v : option (gmap string doc) * list doc * list write)
  : option (gmap string doc) * list doc * list write :=
  (foldl (fun o val => cache_of val <$> o) (fst (fst v)) ops,
   if ro || bool_decide (ops = []) then snd (fst v)
   else bulkWrite (bulk_of is_mutable c <$> ops) (snd (fst v)),
   if ro || bool_decide (ops = []) then snd v
   else snd v ++ [WBulkWrite c (bulk_of is_mutable c <$> ops)]).

(** A key of the form [ref.id], both parts non-empty. *)
Definition ref_id_key (key ref id : string) : Prop :=
  (exists rest, split_dot key = ref :: id :: rest) /\
  truthy ref = true /\ truthy id = true.


(** ** The block listener *)

Module Listener.

Record Migration := mkMigration {
  m_chainId : Z;
  m_blockNumber : Z;
  entity : option string
}.

(** An entry of the block queue. [asyncParts] names the call of
    [saveListenerBlockAndReceipts] whose completion it waits for, by its
    position among the calls issued so far; [asyncEntities] lists, for each
    migration scheduled at the block, its index and the entity being
    fetched. *)
Record QueueEntry := mkEntry {
  number : Z;
  chainId : Z;
  asyncParts : nat;
  asyncEntities : list (nat * option string)
}.

(** What the staged reader resolves to, when it resolves to an object. *)
Record AsyncBlockParts := mkParts {
  block : option Z;
  cancelled : bool
}.

(** The listener's view of the engine and of its own effects. *)
Record State := mkState {
  blockQueue : list QueueEntry;
  latestBlocks : gmap Z Z;       (* engine.latestBlocks[chainId].number *)
  startBlocks : gmap Z Z;        (* engine.startBlocks[chainId] *)
  staging : list (Z * Z);        (* saveListenerBlockAndReceipts(number, chainId) issued *)
  reads : list nat;              (* staged readers awaited and called *)
  timers : list (Z * Z);         (* cancelListenerBlockAfterTimeout armed, (number, chainId) *)
  processed : list (Z * Z)       (* processListenerBlock(number, chainId) started *)
}.

Definition set_queue (q : list QueueEntry) (s : State) : State :=
  mkState q (latestBlocks s) (startBlocks s) (staging s) (reads s) (timers s)
    (processed s).

(** A new call of [saveListenerBlockAndReceipts(number, chainId)]; the result
    is the position of the call, which the queue entry keeps. *)
Definition saveListenerBlockAndReceipts (n c : Z) (s : State) : nat * State :=
  (length (staging s),
   mkState (blockQueue s) (latestBlocks s) (startBlocks s)
     (staging s ++ [(n, c)]) (reads s) (timers s) (processed s)).

Section listener.

(** [indexedMigrations], keyed by chain and block number. *)
Variable indexedMigrations : gmap (Z * Z) (list Migration).

(** The user handlers behind [processListenerBlock(number, chainId, ...)]:
    from the last processed blocks to whether the call threw and the last
    processed blocks it leaves. It is given the length of the queue, not the
    queue. *)
Variable processListenerBlock : Z -> Z -> gmap Z Z -> bool * gmap Z Z.

Definition migrationEntities (n c : Z) : list (nat * option string) :=
  match indexedMigrations !! (c, n) with
  | Some ms => imap (fun key migration => (key, entity migration)) ms
  | None => []
  end.

Definition recordListenerBlock (n c : Z) (s : State) : State :=
  let asyncMigrationEntities := migrationEntities n c in
  let r := saveListenerBlockAndReceipts n c s in
  set_queue (blockQueue (snd r)
             ++ [mkEntry n c (fst r) asyncMigrationEntities]) (snd r).

Definition restackListenerBlock (n c : Z)
    (entities : list (nat * option string)) (s : State) : State :=
  let r := saveListenerBlockAndReceipts n c s in
  set_queue (mkEntry n c (fst r) entities :: blockQueue (snd r)) (snd r).

(** [startProcessingBlock]; [vals] is what [blockAndReceipts] resolved to, as
    the processing arm finds it after the handlers ran: [None] is the [false]
    of a failed read, [cancelled] was set by the timeout arm if it fired. *)
Definition startProcessingBlock (n c : Z)
    (entities : list (nat * option string)) (vals : option AsyncBlockParts)
    (s : State) : State :=
  let r := processListenerBlock n c (latestBlocks s) in
  let s := mkState (blockQueue s) (snd r) (startBlocks s) (staging s)
             (reads s) (timers s) (processed s ++ [(n, c)]) in
  if fst r then
    (* catch (e): reattempt the failed block *)
    restackListenerBlock n c entities s
  else
    match vals with
    | Some parts =>
        if cancelled parts then restackListenerBlock n c entities s else s
    | None => s
    end.

(** How a call of [processListenerBlockSafely] ends. *)
Inductive safely_result :=
  | Skipped              (* the guard was false: nothing done *)
  | Started              (* the staged data was read and the race begun *)
  | TypeError.           (* engine.latestBlocks[chainId] is undefined *)

(** The guard of [processListenerBlockSafely]:
    [engine.startBlocks[+chainId] && number >= engine.startBlocks[+chainId]
     && number >= engine.latestBlocks[+chainId].number]. *)
Definition guard (n c : Z) (s : State) : option bool :=
  match startBlocks s !! c with
  | None => Some false
  | Some start =>
      if start =? 0 then Some false
      else if negb (start <=? n) then Some false
      else match latestBlocks s !! c with
           | None => None
           | Some latest => Some (latest <=? n)
           end
  end.

Definition processListenerBlockSafely (n c : Z) (parts : nat)
    (entities : list (nat * option string)) (vals : option AsyncBlockParts)
    (s : State) : safely_result * State :=
  match guard n c s with
  | None => (TypeError, s)
  | Some false => (Skipped, s)
  | Some true =>
      let s := mkState (blockQueue s) (latestBlocks s) (startBlocks s)
                 (staging s) (reads s ++ [parts]) (timers s ++ [(n, c)])
                 (processed s) in
      (Started, startProcessingBlock n c entities vals s)
  end.

(** The gap-closing loop of [attemptNextBlock]:
    [while (latestBlockNumber !== blockQueue[0].number)
       recordListenerBlock((latestBlockNumber += 1), ...)].
    It is entered with [latestBlockNumber] below the head's number, so the
    difference bounds the number of rounds. *)
Fixpoint close_gap (fuel : nat) (latestBlockNumber head : Z) (c : Z)
    (s : State) : State :=
  match fuel with
  | O => s
  | S fuel' =>
      if latestBlockNumber =? head then s
      else close_gap fuel' (latestBlockNumber + 1) head c
             (recordListenerBlock (latestBlockNumber + 1) c s)
  end.

(** [attemptNextBlock]; [None] when the queue is empty or the chain has no
    latest block (the source would throw on either). [vals] is what the staged
    reader of the block taken will resolve to. The calls of
    [recordListenerBlock] are not awaited: their entries reach the tail of the
    queue once the head has been taken, which leaves the same queue as
    appending them first. *)
Definition attemptNextBlock (vals : option AsyncBlockParts) (s : State)
  : option (QueueEntry * safely_result * State) :=
  match blockQueue s with
  | [] => None
  | head :: _ =>
      let c := chainId head in
      match latestBlocks s !! c with
      | None => None
      | Some latest =>
          let s :=
            if 1 <? number head - latest
            then close_gap (Z.to_nat (number head - latest)) latest
                   (number head) c s
            else s in
          match blockQueue s with
          | [] => None
          | next :: rest =>
              let r := processListenerBlockSafely (number next) c
                         (asyncParts next) (asyncEntities next) vals
                         (set_queue rest s) in
              Some (next, fst r, snd r)
          end
      end
  end.

(** The dispatcher loop of [attachListeners], while blocks are queued:
    [if (blockQueue.length && state.inSync) await attemptNextBlock(...)].
    [rounds] gives what the staged reader resolves to in each round. *)
Fixpoint dispatch (rounds : list (option AsyncBlockParts)) (s : State)
  : State :=
  match rounds with
  | [] => s
  | vals :: rounds' =>
      match attemptNextBlock vals s with
      | Some (_, _, s') => dispatch rounds' s'
      | None => s
      end
  end.

End listener.

(** Modelled from the spec: [processListenerBlock] (the processing stage) is
    not among the sources; on success "Engine state advances", the latest
    block of the chain becoming the block just processed, and nothing is
    thrown. *)
Definition advancingProcessListenerBlock (n c : Z) (latest : gmap Z Z)
  : bool * gmap Z Z :=
  (false, <[c := n]> latest).

End Listener.

(** ** Staging a block and its receipts *)

Module Staging.

Record Tx := mkTx { hash : string }.

Record Block := mkBlock {
  number : Z;
  transactions : list Tx
}.

(** A transaction merged with its receipt. *)
Record Receipt := mkReceipt {
  tx : Tx;
  transactionHash : string
}.

(** The name of a staged file, [<chainId>-<number>] or [<chainId>-<txHash>]. *)
Inductive file_name :=
  | ByNumber (chainId n : Z)
  | ByHash (chainId : Z) (h : string).

(** A [saveJSON(type, name, data)] call, by type and name. *)
Definition saved := (string * file_name)%type.

(** The file of a transaction, named after the hash of its receipt. *)
Definition transaction_file (chainId : Z) (r : Receipt) : saved :=
  ("transactions"%string, ByHash chainId (transactionHash r)).

Section staging.

(** [flags.cleanup] *)
Variable cleanup : bool.

(** The provider's answer to [eth_getTransactionReceipt] for a hash, on the
    n-th try: the [transactionHash] of the receipt, or [None] when the call
    fails. *)
Variable eth_getTransactionReceipt : string -> nat -> option string.

(** [getBlockByNumber(provider, number)] *)
Variable getBlockByNumber : Z -> Z -> Block.

(** [getTransactionReceipt(provider, tx)] for a transaction response: ask
    again until the receipt carries a [transactionHash]; a response without a
    [hash] of its own never passes the test. *)
Fixpoint getTransactionReceipt (fuel try : nat) (t : Tx) : option Receipt :=
  match fuel with
  | O => None
  | S fuel' =>
      match eth_getTransactionReceipt (hash t) try with
      | Some h =>
          if truthy h && truthy (hash t) then Some (mkReceipt t h)
          else getTransactionReceipt fuel' (S try) t
      | None => getTransactionReceipt fuel' (S try) t
      end
  end.

(** [getReceipt(tx, chainId, provider)]: the receipt and the files saved. The
    [catch] branch, which starts over, is not reached: a receipt that
    [getTransactionReceipt] returns carries its hash, and [saveJSON] is taken
    not to fail. *)
Definition getReceipt (fuel : nat) (t : Tx) (chainId : Z)
  : option (Receipt * list saved) :=
  match getTransactionReceipt fuel 0 t with
  | Some fullTx =>
      if truthy (transactionHash fullTx) then
        Some (fullTx,
              if negb cleanup then [transaction_file chainId fullTx] else [])
      else None
  | None => None
  end.

(** [Promise.all(block.transactions.map(getReceipt))], the files in the order
    of the transactions. *)
Fixpoint getReceipts (fuel : nat) (txs : list Tx) (chainId : Z)
  : option (list Receipt * list saved) :=
  match txs with
  | [] => Some ([], [])
  | t :: txs' =>
      match getReceipt fuel t chainId, getReceipts fuel txs' chainId with
      | Some (r, w), Some (rs, ws) => Some (r :: rs, w ++ ws)
      | _, _ => None
      end
  end.

(** [awaitListenerBlockAndReceipts(number, chainId, syncProviders)]: the files
    it saves, after those of [disk]. *)
Definition awaitListenerBlockAndReceipts (fuel : nat) (n chainId : Z)
    (disk : list saved) : option (list saved) :=
  let block := getBlockByNumber chainId n in
  match getReceipts fuel (transactions block) chainId with
  | Some (receipts, ws) =>
      let disk := disk ++ ws in
      let disk :=
        if negb cleanup
        then disk ++ [("blocks"%string, ByNumber chainId (number block))]
        else disk in
      Some (disk ++ [("blockAndReceipts"%string, ByNumber chainId (number block))])
  | None => None
  end.

End staging.

End Staging.

(** ** More of the adapter and of the listener *)


(** A string without a dot. *)
Fixpoint dot_free (s : string) : bool :=
  match s with
  | EmptyString => true
  | String c r => negb (Ascii.eqb c "."%char) && dot_free r
  end.


(** Whether [get] goes to the database for a ref:
    [!this.engine.newDb && (!this.engine.warmDb || ref === "__meta__")]. *)
Definition reads_db (m : Mongo) (ref : string) : bool :=
  negb (newDb (engine m)) && (negb (warmDb (engine m)) || String.eqb ref META).


(** A replacement document of a bulk operation that carries no [_id]. *)
Definition without_id (o : bulk_op) : Prop :=
  match o with
  | ReplaceOneOp _ r => r !! "_id"%string = None
  | DeleteManyOp _ => True
  end.

Module Listening.
Import Listener.

(** The index [attachListeners] makes of the migrations, by chain and block
    number:
    [index[`${chainId}-${blockNumber}`] = index[...] || []; index[...].push(migration)].
    The text of a key determines the chain and the block number, which are
    the key here. *)
Definition indexMigrations (migrations : list Migration)
  : gmap (Z * Z) (list Migration) :=
  foldl (fun index migration =>
           let key := (m_chainId migration, m_blockNumber migration) in
           <[key := default [] (index !! key) ++ [migration]]> index)
    ∅ migrations.

(** The callback [createListener(state, chainId, indexedMigrations, blockQueue)]
    returns, called with a block number: [if (state.listening) await
    recordListenerBlock(number, +chainId, ...)]. *)
Definition createListener (indexedMigrations : gmap (Z * Z) (list Migration))
    (listening : bool) (c : Z) (s : State) (n : Z) : State :=
  if listening then recordListenerBlock indexedMigrations n c s else s.

(** The entry waits for a staging call that was issued for its own block. *)
Definition staged_for (s : State) (e : QueueEntry) : Prop :=
  staging s !! asyncParts e = Some (Listener.number e, chainId e).

(** Every entry of the queue waits for a staging call of its own block. *)
Definition queue_staged (s : State) : Prop :=
  Forall (staged_for s) (blockQueue s).

(** The migrations scheduled at a block of a chain, in the order given. *)
Definition scheduled_at (c n : Z) (migrations : list Migration)
  : list Migration :=
  filter (fun m => m_chainId m = c /\ m_blockNumber m = n) migrations.

(** A staged reader that the timeout arm has not marked. *)
Definition not_cancelled (vals : option AsyncBlockParts) : Prop :=
  forall parts, vals = Some parts -> cancelled parts = false.

Section syncs.

(** The sync operations of the engine, with [op.provider.network.chainId]. *)
Context {Sync : Type}.
Variable chainId_of : Sync -> Z.

(** [getValidSyncOps()]: for each chain of [networks.syncProviders], in the
    order of its keys, the operations of [engine.syncs] on that chain, then
    [reduce((all, op) => ({...all, [op.chainId]: op.validOps}), {})]. *)
Definition getValidSyncOps (syncProviders : list Z) (syncs : list Sync)
  : gmap Z (list Sync) :=
  foldl (fun all op => <[fst op := snd op]> all) ∅
    ((fun chainId =>
        (chainId, filter (fun op => chainId_of op = chainId) syncs))
       <$> syncProviders).

End syncs.

End Listening.

Module Fetching.
Import Staging.

(** The test of [getTransactionReceipt] on what the provider answered:
    [receipt?.transactionHash && tx.hash]; a failed call does not pass. *)
Definition acceptable (answer : option string) (t : Tx) : bool :=
  match answer with
  | Some h => truthy h && truthy (hash t)
  | None => false
  end.

End Fetching.

(** * Properties *)

(** ** The comparison order and the sort *)

Module OrderFacts.

Lemma lex_leb_total a : forall b, lex_leb a b = true \/ lex_leb b a = true.
Proof.
  induction a as [|x a IH]; intros [|y b]; simpl; auto.
  destruct (IH b) as [H|H]; rewrite H;
    destruct (Z.ltb_spec x y), (Z.ltb_spec y x), (Z.eqb_spec x y),
      (Z.eqb_spec y x); simpl; auto; lia.
Qed.

Lemma lex_leb_trans a : forall b c,
  lex_leb a b = true -> lex_leb b c = true -> lex_leb a c = true.
Proof.
  induction a as [|x a IH]; intros [|y b] [|z c]; simpl; auto; try discriminate.
  intros H1 H2.
  destruct (Z.ltb_spec x y), (Z.eqb_spec x y), (Z.ltb_spec y z),
    (Z.eqb_spec y z), (Z.ltb_spec x z), (Z.eqb_spec x z);
    simpl in *; try done; try lia.
  eauto.
Qed.

Lemma ts_leb_refl d : ts_leb d d = true.
Proof. unfold ts_leb. by destruct (lex_leb_total (sort_key (block_ts d)) (sort_key (block_ts d))). Qed.

Lemma ts_leb_total d e : ts_leb d e = true \/ ts_leb e d = true.
Proof. apply lex_leb_total. Qed.

Lemma ts_leb_trans d e f :
  ts_leb d e = true -> ts_leb e f = true -> ts_leb d f = true.
Proof. apply lex_leb_trans. Qed.

Lemma insert_desc_perm d l : insert_desc d l ≡ₚ d :: l.
Proof.
  induction l as [|e l IH]; simpl; [done|].
  destruct (ts_leb e d); [done|]. by rewrite IH, Permutation_swap.
Qed.

Lemma sort_desc_perm l : sort_desc l ≡ₚ l.
Proof.
  induction l as [|d l IH]; simpl; [done|].
  by rewrite insert_desc_perm, IH.
Qed.

Lemma sort_desc_elem l d : d ∈ sort_desc l <-> d ∈ l.
Proof. by rewrite sort_desc_perm. Qed.

Lemma insert_desc_sorted d l :
  StronglySorted newer_first l -> StronglySorted newer_first (insert_desc d l).
Proof.
  induction 1 as [|e l Hl IH He]; simpl.
  - repeat constructor.
  - destruct (ts_leb e d) eqn:Hed.
    + constructor; [by constructor|].
      constructor; [done|].
      eapply Forall_impl; [exact He|]. intros f Hf.
      unfold newer_first in *. eauto using ts_leb_trans.
    + constructor; [done|].
      rewrite insert_desc_perm. constructor; [|done].
      unfold newer_first. by destruct (ts_leb_total d e) as [|]; [|congruence].
Qed.

Lemma sort_desc_sorted l : StronglySorted newer_first (sort_desc l).
Proof.
  induction l; simpl; [constructor|by apply insert_desc_sorted].
Qed.



End OrderFacts.

(** ** The store adapter: reads *)

Module GetFacts.
Import OrderFacts.






End GetFacts.

(** ** The store adapter: collection scans *)

Module ScanFacts.
Import OrderFacts.

Lemma batchSize_pos : (0 < batchSize)%nat.
Proof. unfold batchSize. lia. Qed.

(** The paging loop stops on its own test and returns the view from [skip]
    on, page after page. *)
Lemma page_loop_drop (view : list doc) fuel : forall skip,
  (length view - skip <= fuel)%nat ->
  page_loop fuel skip (length view) view = drop skip view.
Proof.
  pose proof batchSize_pos as Hb.
  induction fuel as [|fuel IH]; intros skip Hfuel; cbn [page_loop].
  - symmetry. apply drop_ge. lia.
  - destruct (Nat.ltb_spec skip (length view)) as [Hlt|Hge].
    + rewrite IH by lia.
      rewrite <- (take_drop batchSize (drop skip view)) at 2.
      by rewrite drop_drop.
    + symmetry. apply drop_ge. lia.
Qed.

Lemma page_loop_all (view : list doc) :
  page_loop (length view) 0 (length view) view = view.
Proof. rewrite page_loop_drop by lia. done. Qed.

(** The documents [$group ... $first] keeps: one per id not seen before. *)
Lemma group_first_elem seen docs r :
  r ∈ group_first seen docs -> r ∈ docs /\ id_of r ∉ seen.
Proof.
  revert seen. induction docs as [|d docs IH]; intros seen; simpl.
  - by intros ?%elem_of_nil.
  - case_bool_decide as Hseen.
    + intros [? ?]%IH. split; [by right|done].
    + intros [->|Hr]%elem_of_cons; [split; [by left|done]|].
      apply IH in Hr as [? Hns]. split; [by right|].
      intros ?. apply Hns. by right.
Qed.

Lemma group_first_NoDup seen docs : NoDup (id_of <$> group_first seen docs).
Proof.
  revert seen. induction docs as [|d docs IH]; intros seen; simpl.
  - constructor.
  - case_bool_decide as Hseen; [apply IH|].
    rewrite fmap_cons. constructor; [|apply IH].
    intros (r & Hid & Hr)%list_elem_of_fmap.
    apply group_first_elem in Hr as [_ Hns]. apply Hns. rewrite <- Hid. by left.
Qed.

Lemma group_first_covers seen docs d :
  d ∈ docs -> id_of d ∉ seen -> id_of d ∈ id_of <$> group_first seen docs.
Proof.
  revert seen. induction docs as [|e docs IH]; intros seen; simpl.
  - by intros ?%elem_of_nil.
  - intros [->|Hd]%elem_of_cons Hns.
    + rewrite bool_decide_eq_false_2 by done. rewrite fmap_cons. by left.
    + case_bool_decide as Hseen; [by apply IH|].
      rewrite fmap_cons.
      destruct (decide (id_of d = id_of e)) as [->|Hne]; [by left|].
      right. apply IH; [done|]. by intros [?|?]%elem_of_cons.
Qed.

(** In a list sorted newest first, the document kept for an id is a newest
    one of that id. *)
Lemma group_first_newest seen docs :
  StronglySorted newer_first docs ->
  forall r, r ∈ group_first seen docs ->
  forall d, d ∈ docs -> id_of d = id_of r -> ts_leb d r = true.
Proof.
  intros Hs. revert seen.
  induction Hs as [|e docs Hs IH He]; intros seen r; simpl.
  - by intros ?%elem_of_nil.
  - case_bool_decide as Hseen.
    + intros Hr d [->|Hd]%elem_of_cons Hid; [|by eapply IH].
      apply group_first_elem in Hr as [_ Hns]. by rewrite <- Hid in Hns.
    + intros [->|Hr]%elem_of_cons d [->|Hd]%elem_of_cons Hid.
      * apply ts_leb_refl.
      * by eapply Forall_forall in He.
      * apply group_first_elem in Hr as [_ Hns].
        destruct Hns. rewrite Hid. by left.
      * by eapply IH.
Qed.

(** The materialised view of a collection: one document per id, each a newest
    document of its id. *)
Lemma latest_view_spec docs :
  length (latest_view docs) = length (remove_dups (id_of <$> docs)) /\
  NoDup (id_of <$> latest_view docs) /\
  (forall r, r ∈ latest_view docs ->
     r ∈ docs /\
     forall d, d ∈ docs -> id_of d = id_of r -> ts_leb d r = true).
Proof.
  unfold latest_view. split; [|split].
  - rewrite <- (length_fmap id_of). apply Permutation_length.
    apply NoDup_Permutation;
      [apply group_first_NoDup|apply NoDup_remove_dups|].
    intros i. rewrite elem_of_remove_dups. split.
    + intros (r & -> & Hr)%list_elem_of_fmap.
      apply group_first_elem in Hr as [Hr _].
      apply (proj1 (sort_desc_elem _ _)) in Hr.
      apply list_elem_of_fmap. eauto.
    + intros (d & -> & Hd)%list_elem_of_fmap.
      apply group_first_covers; [by apply sort_desc_elem|].
      by intros ?%elem_of_nil.
  - apply group_first_NoDup.
  - intros r Hr. split.
    + apply group_first_elem in Hr as [Hr _]. by apply sort_desc_elem.
    + intros d Hd. eapply group_first_newest;
        [apply sort_desc_sorted|done|by apply sort_desc_elem].
Qed.

(** C4, amended. On an immutable collection other than [__meta__] that holds
    documents of N >= 1 distinct ids, with [newDb] and [warmDb] off, [get] of
    the bare ref returns the latest-per-id view: the documents sorted by
    [_block_ts] descending and grouped on [id] taking the first, fetched in
    pages of 5000. The result has exactly N records, no two of the same id,
    each a document of the collection that no document of its id is newer
    than. *)
Theorem get_latest_per_id key ref m :
  split_dot key = [ref] ->
  truthy ref = true ->
  mutable m = false ->
  String.eqb ref META = false ->
  newDb (engine m) = false ->
  warmDb (engine m) = false ->
  collection m ref <> [] ->
  let docs := collection m ref in
  let view := latest_view docs in
  get key m = FoundAll (page_loop (length view) 0 (length view) view) /\
  get key m = FoundAll view /\
  batchSize = 5000%nat /\
  length view = length (remove_dups (id_of <$> docs)) /\
  NoDup (id_of <$> view) /\
  (forall r, r ∈ view ->
     r ∈ docs /\
     forall d, d ∈ docs -> id_of d = id_of r -> ts_leb d r = true).
Proof.
  intros Hk Hr Hmut Hmeta Hnew Hwarm Hdocs. cbn zeta.
  destruct (latest_view_spec (collection m ref)) as (Hlen & Hnd & Hmax).
  assert (latest_view (collection m ref) <> []) as Hview.
  { intros Hnil. rewrite Hnil in Hlen. simpl in Hlen.
    destruct (collection m ref) as [|d docs]; [done|].
    assert (id_of d ∈ remove_dups (id_of <$> d :: docs)) as Hin.
    { apply elem_of_remove_dups. by left. }
    destruct (remove_dups _); [by apply elem_of_nil in Hin|done]. }
  assert (get key m
          = FoundAll (page_loop (length (latest_view (collection m ref))) 0
                        (length (latest_view (collection m ref)))
                        (latest_view (collection m ref)))) as Hget.
  { unfold get. rewrite Hk. cbn [hd lookup list_lookup truthy_opt].
    rewrite Hr, Hmut, Hmeta, Hnew, Hwarm. cbn [andb negb orb].
    rewrite page_loop_all.
    by destruct (latest_view (collection m ref)). }
  split; [done|]. split; [by rewrite Hget, page_loop_all|]. done.
Qed.

(** C4 as stated leaves out the flags. With [warmDb] on, the collection holds
    one document, whose view has one record, and [get] of the bare ref does
    not read the database: the hot cache has nothing for the ref and the call
    fails with [NotFound]. *)
Lemma get_scan_needs_cold_db :
  let d1 : doc := {["id"%string := JStr "a"; "_block_ts"%string := JNum 1]} in
  let m := mkMongo ∅ (mkEngine false true false) false
             {["c"%string := [d1]]} [] in
  length (remove_dups (id_of <$> collection m "c")) = 1%nat /\
  latest_view (collection m "c") = [d1] /\
  get "c" m = NotFound.
Proof. cbn zeta. split; [|split]; by vm_compute. Qed.

(** Three versions of two ids: the scan returns the newest of each. *)
Lemma get_latest_per_id_witness :
  let a1 : doc := {["id"%string := JStr "a"; "_block_ts"%string := JNum 1]} in
  let a2 : doc := {["id"%string := JStr "a"; "_block_ts"%string := JNum 2]} in
  let b1 : doc := {["id"%string := JStr "b"; "_block_ts"%string := JNum 1]} in
  let m := mkMongo ∅ (mkEngine false false false) false
             {["c"%string := [a1; b1; a2]]} [] in
  (split_dot "c" = ["c"%string] /\ truthy "c" = true /\ mutable m = false /\
   String.eqb "c" META = false /\ newDb (engine m) = false /\
   warmDb (engine m) = false /\ collection m "c" <> []) /\
  get "c" m = FoundAll [a2; b1].
Proof.
  cbn zeta. split; [by vm_compute|].
  refine (eq_trans
            (proj1 (proj2
               (get_latest_per_id "c" "c"
                  (mkMongo ∅ (mkEngine false false false) false
                     {["c"%string :=
                         [{["id"%string := JStr "a"; "_block_ts"%string := JNum 1]};
                          {["id"%string := JStr "b"; "_block_ts"%string := JNum 1]};
                          {["id"%string := JStr "a"; "_block_ts"%string := JNum 2]}]]}
                     [])
                  eq_refl eq_refl eq_refl eq_refl eq_refl eq_refl _))) _).
  - by vm_compute.
  - by vm_compute.
Defined.

End ScanFacts.

(** ** The store adapter: batch *)

Module BatchFacts.

Lemma assemble_fold is_mutable c ops : forall acc,
  foldl (assemble is_mutable c) acc ops
  = (fst acc ++ (bulk_of is_mutable c <$> ops),
     foldl (fun k val => alter (cache_of val) c k) (snd acc) ops).
Proof.
  induction ops as [|val ops IH]; intros [b k]; simpl.
  - by rewrite app_nil_r.
  - rewrite IH. unfold assemble, bulk_of, cache_of, kv_set, kv_delete.
    destruct (type val); simpl; by rewrite <- app_assoc.
Qed.

Lemma alter_fold_eq c ops : forall k : gmap string (gmap string doc),
  foldl (fun k val => alter (cache_of val) c k) k ops !! c
  = foldl (fun o val => cache_of val <$> o) (k !! c) ops.
Proof.
  induction ops as [|val ops IH]; intros k; simpl; [done|].
  by rewrite IH, lookup_alter_eq.
Qed.

Lemma alter_fold_ne c c' ops : c <> c' ->
  forall k : gmap string (gmap string doc),
  foldl (fun k val => alter (cache_of val) c' k) k ops !! c = k !! c.
Proof.
  intros Hne. induction ops as [|val ops IH]; intros k; simpl; [done|].
  by rewrite IH, lookup_alter_ne.
Qed.

Lemma bulk_nil is_mutable c (ops : list BatchOp) :
  bool_decide (bulk_of is_mutable c <$> ops = []) = bool_decide (ops = []).
Proof. by destruct ops. Qed.

Lemma writes_to_app c ws ws' :
  writes_to c (ws ++ ws') = writes_to c ws ++ writes_to c ws'.
Proof. apply filter_app. Qed.

(** The loop body leaves the flags alone. *)
Lemma batch_collection_flags byCollection m c :
  engine (batch_collection byCollection m c) = engine m /\
  mutable (batch_collection byCollection m c) = mutable m.
Proof.
  unfold batch_collection. by destruct (_ && _).
Qed.

(** The loop body for collection [c'] changes the part of [c'] as [run_ops]
    says and no other part. *)
Lemma batch_collection_view byCollection m c c' :
  view c (batch_collection byCollection m c')
  = if decide (c = c')
    then run_ops (readOnly (engine m)) (mutable m) c
           (default [] (obj_get c byCollection)) (view c m)
    else view c m.
Proof.
  destruct m as [k e mu d ws].
  unfold batch_collection, view, run_ops, collection, set_kv, durable_write.
  rewrite assemble_fold. cbn [fst snd app kv engine mutable db writes].
  rewrite bulk_nil.
  destruct (decide (c = c')) as [<-|Hne].
  - destruct (readOnly e); cbn [negb andb orb kv db writes].
    + by rewrite alter_fold_eq.
    + destruct (bool_decide _); cbn [negb kv db writes];
        rewrite alter_fold_eq; [done|].
      rewrite lookup_insert_eq, writes_to_app.
      unfold writes_to at 2. by rewrite filter_cons_True, filter_nil by done.
  - destruct (negb _ && negb _); cbn [kv db writes];
      rewrite alter_fold_ne by done; [|done].
    rewrite lookup_insert_ne by done. rewrite writes_to_app.
    unfold writes_to at 2.
    rewrite filter_cons_False, filter_nil by (simpl; congruence).
    by rewrite app_nil_r.
Qed.

Lemma run_ops_nil ro is_mutable c v : run_ops ro is_mutable c [] v = v.
Proof. destruct v as [[o d] w]. unfold run_ops. simpl. by rewrite orb_true_r. Qed.

(** Over a list of distinct collections the loop changes the part of each
    listed collection once. *)
Lemma batch_loop_view byCollection c ks : forall m,
  NoDup ks ->
  view c (foldl (batch_collection byCollection) m ks)
  = if decide (c ∈ ks)
    then run_ops (readOnly (engine m)) (mutable m) c
           (default [] (obj_get c byCollection)) (view c m)
    else view c m.
Proof.
  induction ks as [|k ks IH]; intros m Hnd; cbn [foldl].
  - by rewrite decide_False by set_solver.
  - apply NoDup_cons in Hnd as [Hk Hnd]. rewrite IH by done.
    destruct (batch_collection_flags byCollection m k) as [-> ->].
    rewrite batch_collection_view.
    destruct (decide (c = k)) as [->|Hne].
    + rewrite decide_False by done.
      by rewrite decide_True by (apply elem_of_cons; auto).
    + destruct (decide (c ∈ ks)).
      * by rewrite decide_True by (apply elem_of_cons; auto).
      * by rewrite decide_False by (rewrite elem_of_cons; intros [|]; done).
Qed.

Lemma batch_loop_flags byCollection ks : forall m,
  engine (foldl (batch_collection byCollection) m ks) = engine m /\
  mutable (foldl (batch_collection byCollection) m ks) = mutable m.
Proof.
  induction ks as [|k ks IH]; intros m; simpl; [done|].
  destruct (IH (batch_collection byCollection m k)) as [-> ->].
  apply batch_collection_flags.
Qed.

(** *** Objects and their keys *)

Lemma obj_get_snoc {V} c (o : obj V) k v :
  obj_get c (o ++ [(k, v)])
  = match obj_get c o with
    | Some x => Some x
    | None => if decide (k = c) then Some v else None
    end.
Proof.
  unfold obj_get. induction o as [|[k' v'] o IH]; simpl.
  - destruct (String.eqb_spec k c);
      [by rewrite decide_True|by rewrite decide_False].
  - by destruct (String.eqb_spec k' c).
Qed.

Lemma obj_get_None {V} c (o : obj V) :
  obj_get c o = None <-> c ∉ (fst <$> o).
Proof.
  unfold obj_get. induction o as [|[k' v'] o IH]; simpl.
  - set_solver.
  - destruct (String.eqb_spec k' c) as [->|Hne]; simpl.
    + split; [done|]. set_solver.
    + rewrite IH. set_solver.
Qed.

Lemma obj_push_keys {V} k (x : V) (o : obj (list V)) :
  fst <$> obj_push k x o = fst <$> o.
Proof.
  unfold obj_push. rewrite <- list_fmap_compose. apply list_fmap_ext.
  intros i [k' l] _. simpl. by destruct (String.eqb k' k).
Qed.

Lemma obj_get_push {V} c k (x : V) (o : obj (list V)) :
  obj_get c (obj_push k x o)
  = (fun l => if decide (k = c) then l ++ [x] else l) <$> obj_get c o.
Proof.
  unfold obj_get, obj_push. induction o as [|[k' l] o IH]; simpl; [done|].
  destruct (String.eqb_spec k' k) as [->|Hne]; simpl.
  - destruct (String.eqb_spec k c) as [->|Hne]; simpl; [|done].
    by rewrite decide_True.
  - destruct (String.eqb_spec k' c) as [->|Hne']; simpl; [|done].
    by rewrite decide_False by congruence.
Qed.

Lemma obj_default_keys {V} k (v : V) (o : obj V) :
  NoDup (fst <$> o) -> NoDup (fst <$> obj_default k v o).
Proof.
  intros Hnd. unfold obj_default.
  destruct (obj_get k o) eqn:Hg; [done|].
  apply obj_get_None in Hg. rewrite fmap_app. simpl.
  apply NoDup_app. split; [done|]. split; [set_solver|].
  apply NoDup_singleton.
Qed.

Lemma obj_get_default {V} c k (v : V) (o : obj V) :
  obj_get c (obj_default k v o)
  = match obj_get c o with
    | Some x => Some x
    | None => if decide (k = c) then Some v else None
    end.
Proof.
  unfold obj_default. destruct (obj_get k o) eqn:Hg.
  - destruct (obj_get c o) eqn:Hc; [done|].
    rewrite decide_False; [done|]. congruence.
  - apply obj_get_snoc.
Qed.

(** [Object.keys] lists every key once. *)
Lemma object_keys_perm {V} (o : obj V) : object_keys o ≡ₚ fst <$> o.
Proof.
  unfold object_keys. rewrite merge_sort_Permutation.
  apply filter_app_complement.
Qed.

(** *** The first pass *)

Lemma ops_of_snoc c vals val :
  ops_of c (vals ++ [val])
  = ops_of c vals
    ++ (if decide (survives val = true /\ op_ref val = c) then [val] else []).
Proof.
  unfold ops_of. rewrite filter_app, filter_cons, filter_nil.
  by destruct (decide _).
Qed.

Lemma kv_default_lookup c r (k : gmap string (gmap string doc)) :
  kv_default r k !! c
  = if decide (r = c) then Some (default ∅ (k !! c)) else k !! c.
Proof.
  unfold kv_default. destruct (decide (r = c)) as [->|Hne].
  - destruct (k !! c) eqn:E; [by rewrite E|by rewrite lookup_insert_eq].
  - destruct (k !! r); [done|by rewrite lookup_insert_ne].
Qed.

(** After the first pass: the keys of [byCollection] are distinct, each
    collection holds the ops kept for it, in order, and the hot cache has an
    entry for each collection that keeps an op. *)
Lemma first_pass vals (k : gmap string (gmap string doc)) :
  let r := foldl collect ([], k) vals in
  NoDup (fst <$> fst r) /\
  (forall c, default [] (obj_get c (fst r)) = ops_of c vals) /\
  (forall c, snd r !! c
             = if bool_decide (ops_of c vals = []) then k !! c
               else Some (default ∅ (k !! c))).
Proof.
  induction vals as [|val vals IH] using rev_ind; cbn zeta.
  - simpl. split; [constructor|]. split; [done|]. by intros c.
  - rewrite foldl_snoc. cbn zeta in IH.
    destruct (foldl collect ([], k) vals) as [o k1].
    destruct IH as (Hnd & Hops & Hkv). cbn [fst snd] in *.
    unfold collect. cbn [fst snd].
    pose proof (obj_default_keys (op_ref val) [] o Hnd) as Hnd'.
    assert (forall c, default [] (obj_get c (obj_default (op_ref val) [] o))
                      = ops_of c vals) as Hops'.
    { intros c. rewrite obj_get_default, <- Hops.
      destruct (obj_get c o); [done|]. by destruct (decide _). }
    destruct (survives val) eqn:Hs; cbn [fst snd].
    + split; [by rewrite obj_push_keys|]. split.
      * intros c. rewrite obj_get_push, ops_of_snoc, <- Hops', obj_get_default.
        destruct (decide (op_ref val = c)) as [->|Hne].
        -- destruct (decide (_ /\ _)) as [_|[]]; [|done].
           by destruct (obj_get c o).
        -- destruct (decide (_ /\ _)) as [[_ ?]|_]; [done|].
           rewrite app_nil_r. by destruct (obj_get c o).
      * intros c. rewrite kv_default_lookup, Hkv, ops_of_snoc.
        destruct (decide (op_ref val = c)) as [->|Hne].
        -- destruct (decide (_ /\ _)) as [_|[]]; [|done].
           rewrite (bool_decide_eq_false_2 (_ ++ [val] = []))
             by (by destruct (ops_of c vals)).
           by destruct (bool_decide _), (k !! c).
        -- destruct (decide (_ /\ _)) as [[_ ?]|_]; [done|].
           by rewrite app_nil_r.
    + split; [done|]. split.
      * intros c. rewrite Hops', ops_of_snoc.
        destruct (decide (_ /\ _)) as [[? _]|_]; [congruence|].
        by rewrite app_nil_r.
      * intros c. rewrite Hkv, ops_of_snoc.
        destruct (decide (_ /\ _)) as [[? _]|_]; [congruence|].
        by rewrite app_nil_r.
Qed.

(** *** A batch, collection by collection *)

(** The part of collection [c] after [batch]: the entry of the hot cache is
    created if an op is kept for [c], the kept ops update it in order, and,
    unless [readOnly] is set or no op is kept, one [bulkWrite] of the kept ops
    is issued. *)
Lemma batch_view c vals m :
  view c (snd (batch vals m))
  = run_ops (readOnly (engine m)) (mutable m) c (ops_of c vals)
      (if bool_decide (ops_of c vals = []) then kv m !! c
       else Some (default ∅ (kv m !! c)),
       collection m c, writes_to c (writes m)).
Proof.
  unfold batch. cbn [snd].
  destruct (first_pass vals (kv m)) as (Hnd & Hops & Hkv).
  destruct (foldl collect ([], kv m) vals) as [o k1]. cbn [fst snd] in *.
  rewrite batch_loop_view by (by rewrite object_keys_perm).
  assert (view c (set_kv k1 m)
          = (if bool_decide (ops_of c vals = []) then kv m !! c
             else Some (default ∅ (kv m !! c)),
             collection m c, writes_to c (writes m))) as ->.
  { unfold view. by rewrite <- Hkv. }
  cbn [engine mutable set_kv]. rewrite Hops.
  destruct (decide (c ∈ object_keys o)) as [|Hc]; [done|].
  rewrite object_keys_perm in Hc. apply obj_get_None in Hc.
  rewrite <- Hops, Hc. simpl. by rewrite run_ops_nil.
Qed.

Lemma batch_flags vals m :
  engine (snd (batch vals m)) = engine m /\
  mutable (snd (batch vals m)) = mutable m.
Proof. unfold batch. cbn [snd]. by rewrite !(proj1 (batch_loop_flags _ _ _)), !(proj2 (batch_loop_flags _ _ _)). Qed.











End BatchFacts.

(** ** The store adapter: single writes, and batches against them *)

Module WriteFacts.
Import BatchFacts.

(** [put] on a key [ref.id]. *)
Lemma put_ref_id key ref id rest val m :
  split_dot key = ref :: id :: rest ->
  truthy ref = true ->
  truthy id = true ->
  put key val m
  = (true,
     let m1 := set_kv (kv_set ref id val (kv_default ref (kv m))) m in
     if readOnly (engine m) then m1
     else let f := put_filter (mutable m) ref (JStr id) val in
          durable_write (WReplaceOne ref f val) ref
            (replaceOne f val (collection m ref)) m1).
Proof.
  intros Hk Hr Hi. unfold put. rewrite Hk.
  cbn [hd lookup list_lookup prop_key default truthy_opt]. rewrite Hr, Hi.
  cbn [andb]. by destruct (readOnly (engine m)) eqn:E; cbn; rewrite E.
Qed.

(** [del] on a key [ref.id]: the filter handed to [deleteOne] is the one made
    of the promise, which is empty. *)
Lemma del_ref_id key ref id rest m :
  split_dot key = ref :: id :: rest ->
  truthy ref = true ->
  truthy id = true ->
  del key m
  = (true,
     let m1 := set_kv (kv_delete ref id (kv_default ref (kv m))) m in
     if readOnly (engine m) then m1
     else durable_write (WDeleteOne ref []) ref
            (deleteOne [] (collection m ref)) m1).
Proof.
  intros Hk Hr Hi. unfold del. rewrite Hk.
  cbn [hd lookup list_lookup prop_key default truthy_opt]. rewrite Hr, Hi.
  cbn [andb]. by destruct (readOnly (engine m)) eqn:E; cbn; rewrite E.
Qed.

Lemma deleteOne_any docs : deleteOne [] docs = tail docs.
Proof. by destruct docs. Qed.


(** Outside [readOnly], [del] removes the first document of the collection,
    whatever its id and its [_block_ts]. *)
Lemma del_first_document key ref id rest m :
  split_dot key = ref :: id :: rest ->
  truthy ref = true ->
  truthy id = true ->
  readOnly (engine m) = false ->
  collection (snd (del key m)) ref = tail (collection m ref) /\
  writes (snd (del key m)) = writes m ++ [WDeleteOne ref []].
Proof.
  intros Hk Hr Hi Hro. rewrite (del_ref_id _ _ _ _ _ Hk Hr Hi). cbn [snd].
  rewrite Hro. unfold collection, durable_write. cbn [db writes].
  by rewrite lookup_insert_eq, deleteOne_any.
Qed.

(** C5, on the code. The collection [c] holds a document of id [a] and two
    versions of id [b]; the newest document of id [b] is the one with
    [_block_ts] 2. [del("c.b")] outside [readOnly] hands [deleteOne] a filter
    that does not name the document found: the version of [b] with
    [_block_ts] 2 stays, and the document of id [a] is deleted. *)
Theorem del_misses_newest :
  let a1 : doc := {["id"%string := JStr "a"; "_block_ts"%string := JNum 1]} in
  let b1 : doc := {["id"%string := JStr "b"; "_block_ts"%string := JNum 1]} in
  let b2 : doc := {["id"%string := JStr "b"; "_block_ts"%string := JNum 2]} in
  let m := mkMongo ∅ (mkEngine false false false) false
             {["c"%string := [a1; b1; b2]]} [] in
  findOne [("id"%string, JStr "b")] (collection m "c") = Some b2 /\
  collection (snd (del "c.b" m)) "c" = [b1; b2] /\
  writes (snd (del "c.b" m)) = [WDeleteOne "c" []].
Proof. cbn zeta. split; [|split]; by vm_compute. Qed.

(** Had the lookup been awaited, the filter would be the document found and
    the newest version of [b] would be the one to go. *)
Lemma del_awaited_removes_newest :
  let a1 : doc := {["id"%string := JStr "a"; "_block_ts"%string := JNum 1]} in
  let b1 : doc := {["id"%string := JStr "b"; "_block_ts"%string := JNum 1]} in
  let b2 : doc := {["id"%string := JStr "b"; "_block_ts"%string := JNum 2]} in
  let document := Awaited (findOne [("id"%string, JStr "b")] [a1; b1; b2]) in
  async_truthy document = true /\
  deleteOne (as_filter document) [a1; b1; b2] = [a1; b1].
Proof. cbn zeta. split; by vm_compute. Qed.


Lemma put_flags key val m :
  engine (snd (put key val m)) = engine m /\
  mutable (snd (put key val m)) = mutable m.
Proof.
  unfold put. cbn. destruct (truthy _ && truthy_opt _); [|done].
  by destruct (negb _).
Qed.

Lemma put_kv key ref id val m :
  ref_id_key key ref id ->
  kv (snd (put key val m)) = kv_set ref id val (kv_default ref (kv m)).
Proof.
  intros ([rest Hk] & Hr & Hi). rewrite (put_ref_id _ _ _ _ _ _ Hk Hr Hi).
  cbn [snd]. by destruct (readOnly (engine m)).
Qed.




Lemma put_collection c key ref id val m :
  ref_id_key key ref id ->
  collection (snd (put key val m)) c
  = if readOnly (engine m) then collection m c
    else if decide (ref = c)
         then replaceOne (put_filter (mutable m) ref (JStr id) val) val
                (collection m c)
         else collection m c.
Proof.
  intros ([rest Hk] & Hr & Hi). rewrite (put_ref_id _ _ _ _ _ _ Hk Hr Hi).
  cbn [snd]. destruct (readOnly (engine m)); [done|].
  unfold collection, durable_write. cbn [db set_kv].
  destruct (decide (ref = c)) as [->|Hne].
  - by rewrite lookup_insert_eq.
  - by rewrite lookup_insert_ne.
Qed.













End WriteFacts.

(** ** The block listener *)

Module ListenerFacts.
Import Listener.

Section facts.

Variable indexedMigrations : gmap (Z * Z) (list Migration).
Variable processListenerBlock : Z -> Z -> gmap Z Z -> bool * gmap Z Z.

Abbreviation record := (recordListenerBlock indexedMigrations).
Abbreviation safely := (processListenerBlockSafely processListenerBlock).
Abbreviation attempt := (attemptNextBlock indexedMigrations processListenerBlock).

Lemma guard_true n c s :
  guard n c s = Some true <->
  exists start latest,
    startBlocks s !! c = Some start /\ start <> 0 /\ start <= n /\
    latestBlocks s !! c = Some latest /\ latest <= n.
Proof.
  unfold guard. split.
  - destruct (startBlocks s !! c) as [start|] eqn:Hs; [|discriminate].
    destruct (Z.eqb_spec start 0); [discriminate|].
    destruct (Z.leb_spec start n); simpl; [|discriminate].
    destruct (latestBlocks s !! c) as [latest|] eqn:Hl; [|discriminate].
    destruct (Z.leb_spec latest n); [|discriminate].
    intros _. exists start, latest. auto.
  - intros (start & latest & -> & Hne & Hle & -> & Hl).
    destruct (Z.eqb_spec start 0); [contradiction|].
    destruct (Z.leb_spec start n); [|lia]. simpl.
    destruct (Z.leb_spec latest n); [done|lia].
Qed.

Lemma guard_none n c s :
  guard n c s = None -> latestBlocks s !! c = None.
Proof.
  unfold guard.
  destruct (startBlocks s !! c) as [start|]; [|discriminate].
  destruct (start =? 0); [discriminate|].
  destruct (negb (start <=? n)); [discriminate|].
  destruct (latestBlocks s !! c); [discriminate|done].
Qed.

(** C9. [processListenerBlockSafely] starts on a block exactly when
    [startBlocks[chainId]] is set and not zero, [number >= startBlocks[chainId]]
    and [number >= latestBlocks[chainId].number]; a number equal to the latest
    one is let through. In every other case nothing is read, no timeout is
    armed and the state is what it was, and the call returns (it can only
    throw where [latestBlocks[chainId]] does not exist). When it starts, the
    staged reader is read, the timeout armed and the block handed to
    [processListenerBlock]. *)
Theorem processListenerBlockSafely_guard n c parts entities vals s :
  let r := processListenerBlockSafely processListenerBlock n c parts entities
             vals s in
  (fst r = Started <->
     exists start latest,
       startBlocks s !! c = Some start /\ start <> 0 /\ start <= n /\
       latestBlocks s !! c = Some latest /\ latest <= n) /\
  (fst r <> Started -> snd r = s) /\
  (fst r <> Started -> is_Some (latestBlocks s !! c) -> fst r = Skipped) /\
  (fst r = Started ->
     reads (snd r) = reads s ++ [parts] /\
     timers (snd r) = timers s ++ [(n, c)] /\
     (n, c) ∈ processed (snd r)).
Proof.
  cbn zeta. unfold processListenerBlockSafely.
  destruct (guard n c s) as [[|]|] eqn:Hg; simpl.
  - split; [split; [intros _; by apply guard_true | done]|].
    split; [done|]. split; [done|]. intros _.
    unfold startProcessingBlock. simpl.
    destruct (processListenerBlock n c (latestBlocks s)) as [[|] l']; simpl.
    + repeat split; auto. set_solver.
    + destruct vals as [[b [|]]|]; simpl; repeat split; auto; set_solver.
  - split; [split; [done|]|].
    + intros H. apply guard_true in H. congruence.
    + repeat split; done.
  - split; [split; [done|]|].
    + intros H. apply guard_true in H. congruence.
    + split; [done|]. split; [|done].
      intros _ [l Hl]. apply guard_none in Hg. congruence.
Qed.

(** Recording a block appends to the queue and leaves the engine alone. *)
Lemma record_queue n c s :
  blockQueue (record n c s)
  = blockQueue s ++ [mkEntry n c (length (staging s)) (migrationEntities indexedMigrations n c)].
Proof. reflexivity. Qed.

Lemma record_latest n c s : latestBlocks (record n c s) = latestBlocks s.
Proof. reflexivity. Qed.

Lemma close_gap_latest fuel l h c s :
  latestBlocks (close_gap indexedMigrations fuel l h c s) = latestBlocks s.
Proof.
  revert l s. induction fuel as [|fuel IH]; intros l s; simpl; [done|].
  destruct (l =? h); [done|]. by rewrite IH.
Qed.

(** The gap-closing loop only appends: the queue it is given is a prefix of
    the queue it leaves. *)
Lemma close_gap_prefix fuel l h c s :
  exists added,
    blockQueue (close_gap indexedMigrations fuel l h c s) = blockQueue s ++ added.
Proof.
  revert l s. induction fuel as [|fuel IH]; intros l s; simpl.
  - exists []. by rewrite app_nil_r.
  - destruct (l =? h).
    + exists []. by rewrite app_nil_r.
    + destruct (IH (l + 1) (record (l + 1) c s)) as [added Hq].
      rewrite Hq, record_queue, <- app_assoc. eauto.
Qed.



(** The loop that closes a gap of [k] blocks records [k] blocks, the one at
    the head of the queue among them. *)
Lemma close_gap_records k : forall l h c s,
  h = l + Z.of_nat k ->
  blockQueue (close_gap indexedMigrations k l h c s)
  = blockQueue s
    ++ imap (fun i n => mkEntry n c (length (staging s) + i)
                          (migrationEntities indexedMigrations n c))
         ((fun i => l + 1 + Z.of_nat i) <$> seq 0 k).
Proof.
  induction k as [|k IH]; intros l h c s Hh.
  - simpl. by rewrite app_nil_r.
  - cbn [close_gap].
    destruct (Z.eqb_spec l h) as [E|_]; [lia|].
    rewrite IH, record_queue, <- app_assoc by lia. f_equal.
    cbn [seq fmap list_fmap imap]. rewrite Z.add_0_r, Nat.add_0_r. f_equal.
    rewrite <- seq_shift, <- list_fmap_compose.
      unfold recordListenerBlock, saveListenerBlockAndReceipts. simpl.
      rewrite length_app. simpl.
      rewrite !imap_fmap. apply imap_ext. intros i x _. simpl.
      replace (l + 1 + 1 + Z.of_nat x) with (l + 1 + Z.of_nat (S x)) by lia.
      by replace (length (staging s) + 1 + i)%nat
        with (length (staging s) + S i)%nat by lia.
Qed.

(** The loop stops on its own test: fuel beyond the width of the gap changes
    nothing. *)
Lemma close_gap_enough k extra : forall l h c s,
  h = l + Z.of_nat k ->
  close_gap indexedMigrations (k + extra) l h c s
  = close_gap indexedMigrations k l h c s.
Proof.
  induction k as [|k IH]; intros l h c s Hh.
  - destruct extra; [done|]. cbn [Nat.add close_gap].
    by destruct (Z.eqb_spec l h) as [_|Hne]; [|lia].
  - cbn [Nat.add close_gap].
    destruct (Z.eqb_spec l h) as [E|_]; [lia|]. apply IH. lia.
Qed.

(** C1, on the code. A listener event for block 105 of chain 1 is queued while
    the latest block of the chain is 100. Whatever the handlers and the staged
    data do, [attemptNextBlock] records five blocks, 101 to 105, behind the
    head, and hands the head, 105, to processing first: 105 is processed ahead
    of 101..104, which are left in the queue together with a second entry for
    105 (behind the restacked 105, when the attempt failed). *)
Theorem gap_fill_processes_head_first vals :
  let s := mkState [mkEntry 105 1 0 []] {[1 := 100]} {[1 := 1]} [(105, 1)]
             [] [] [] in
  exists s',
    attemptNextBlock indexedMigrations processListenerBlock vals s
    = Some (mkEntry 105 1 0 [], Started, s') /\
    processed s' = [(105, 1)] /\
    take 6 (staging s')
    = [(105, 1); (101, 1); (102, 1); (103, 1); (104, 1); (105, 1)] /\
    exists restacked,
      (restacked = [] \/ restacked = [105]) /\
      Listener.number <$> blockQueue s' = restacked ++ [101; 102; 103; 104; 105].
Proof.
  cbn zeta.
  assert (attempt vals (mkState [mkEntry 105 1 0 []] {[1 := 100]} {[1 := 1]}
                           [(105, 1)] [] [] [])
          = Some (mkEntry 105 1 0 [], Started,
                  startProcessingBlock processListenerBlock 105 1 [] vals
                    (mkState
                       (imap (fun i n => mkEntry n 1 (1 + i)
                                (migrationEntities indexedMigrations n 1))
                          [101; 102; 103; 104; 105])
                       {[1 := 100]} {[1 := 1]}
                       [(105, 1); (101, 1); (102, 1); (103, 1); (104, 1); (105, 1)]
                       [0%nat] [(105, 1)] []))) as ->.
  { reflexivity. }
  eexists. split; [reflexivity|].
  unfold startProcessingBlock. cbn [latestBlocks].
  destruct (processListenerBlock 105 1 {[1 := 100]}) as [[|] l']; cbn [fst snd].
  - split; [reflexivity|]. split; [reflexivity|].
    exists [105]. split; [by right|reflexivity].
  - destruct vals as [[b [|]]|]; cbn [cancelled];
      (split; [reflexivity|]; split; [reflexivity|]);
      [exists [105]; split; [by right|reflexivity]
      |exists []; split; [by left|reflexivity]
      |exists []; split; [by left|reflexivity]].
Qed.

(** The same for every N and every chain: with N+k at the head (k > 1) and N
    the latest block, the head is taken first and N+1..N+k are left queued
    behind what was queued. *)
Lemma gap_fill_takes_head_first (N : Z) (k : nat) e q vals s :
  blockQueue s = e :: q ->
  Listener.number e = N + Z.of_nat k ->
  (1 < k)%nat ->
  latestBlocks s !! chainId e = Some N ->
  exists s0,
    attempt vals s
    = (fun r => (e, fst r, snd r))
        <$> Some (safely (Listener.number e) (chainId e) (asyncParts e)
                    (asyncEntities e) vals s0) /\
    Listener.number <$> blockQueue s0
    = (Listener.number <$> q) ++ ((fun i => N + 1 + Z.of_nat i) <$> seq 0 k).
Proof.
  intros Hq Hn Hk Hl. unfold attemptNextBlock. rewrite Hq, Hl.
  destruct (Z.ltb_spec 1 (Listener.number e - N)) as [_|]; [|lia].
  replace (Z.to_nat (Listener.number e - N)) with k by lia.
  rewrite (close_gap_records k N _ _ _ Hn), Hq. cbn [app].
  eexists. split; [reflexivity|].
  cbn [blockQueue set_queue]. rewrite fmap_app. f_equal.
  rewrite fmap_imap.
  etrans; [apply (imap_ext _ (fun _ => id)); by intros|].
  by rewrite (imap_const id), list_fmap_id.
Qed.

End facts.


(** With handlers that succeed and advance the latest block, and staged data
    that is never cancelled, the dispatcher turns the event for 105 at latest
    100 into two runs of block 105 and none of 101..104: those are taken from
    the queue after 105 and fall to the guard. *)
Lemma gap_fill_trace :
  let s := mkState [mkEntry 105 1 0 []] {[1 := 100]} {[1 := 1]} [(105, 1)]
             [] [] [] in
  let s' := dispatch ∅ advancingProcessListenerBlock
              (replicate 7 (Some (mkParts (Some 105) false))) s in
  processed s' = [(105, 1); (105, 1)] /\ blockQueue s' = [] /\
  latestBlocks s' !! 1 = Some 105.
Proof. vm_compute. done. Qed.

End ListenerFacts.

(** ** Staging *)

Module StagingFacts.
Import Staging.

Section facts.

Variable cleanup : bool.
Variable eth_getTransactionReceipt : string -> nat -> option string.
Variable getBlockByNumber : Z -> Z -> Block.

Abbreviation receipt_of := (getTransactionReceipt eth_getTransactionReceipt).
Abbreviation receipts_of := (getReceipts cleanup eth_getTransactionReceipt).

(** A receipt that comes back carries a hash and belongs to the transaction
    asked for. *)
Lemma getTransactionReceipt_some fuel : forall try t r,
  receipt_of fuel try t = Some r ->
  tx r = t /\ truthy (transactionHash r) = true.
Proof.
  induction fuel as [|fuel IH]; intros try t r; simpl; [discriminate|].
  destruct (eth_getTransactionReceipt (hash t) try) as [h|]; [|apply IH].
  destruct (truthy h) eqn:Hh; simpl; [|apply IH].
  destruct (truthy (hash t)); [|apply IH].
  intros [= <-]. auto.
Qed.

(** Once every transaction gets its receipt, [getReceipts] returns one receipt
    per transaction, in order, and has saved their files unless [cleanup] is
    set. *)
Lemma getReceipts_saved fuel chainId txs :
  Forall (fun t => is_Some (receipt_of fuel 0 t)) txs ->
  exists receipts,
    receipts_of fuel txs chainId
    = Some (receipts,
            if cleanup then [] else transaction_file chainId <$> receipts) /\
    Forall2 (fun t r => receipt_of fuel 0 t = Some r) txs receipts.
Proof.
  induction 1 as [|t txs [r Hr] _ (receipts & IH & Htx)]; simpl.
  - exists []. split; [by destruct cleanup|constructor].
  - unfold getReceipt. rewrite Hr, IH.
    destruct (getTransactionReceipt_some _ _ _ _ Hr) as [Ht ->].
    exists (r :: receipts). split; [by destruct cleanup|by constructor].
Qed.

(** C8. Staging a block whose receipts the provider delivers saves, with
    [flags.cleanup] set, the combined [blockAndReceipts/<chainId>-<number>]
    file and nothing else; with [flags.cleanup] unset it saves one
    [transactions/] file per transaction of the block, the [blocks/] file and
    the combined file; each transaction file is named after the hash of the
    receipt fetched for the transaction. *)
Theorem staging_files fuel n chainId disk :
  let block := getBlockByNumber chainId n in
  Forall (fun t => is_Some (receipt_of fuel 0 t)) (transactions block) ->
  exists receipts,
    Forall2 (fun t r => receipt_of fuel 0 t = Some r) (transactions block)
      receipts /\
    awaitListenerBlockAndReceipts cleanup eth_getTransactionReceipt
      getBlockByNumber fuel n chainId disk
    = Some (disk
            ++ (if cleanup then []
                else (transaction_file chainId <$> receipts)
                     ++ [("blocks"%string, ByNumber chainId (number block))])
            ++ [("blockAndReceipts"%string, ByNumber chainId (number block))]).
Proof.
  intros block H.
  destruct (getReceipts_saved fuel chainId _ H) as (receipts & Hr & Htx).
  exists receipts. split; [done|].
  unfold awaitListenerBlockAndReceipts. fold block. rewrite Hr.
  destruct cleanup; simpl; by rewrite <- ?app_assoc, ?app_nil_r.
Qed.

(** Whenever staging returns at all, the files it added are of these classes
    only: with [cleanup] set, the one combined file. *)
Lemma staging_files_cleanup fuel n chainId disk disk' :
  cleanup = true ->
  awaitListenerBlockAndReceipts cleanup eth_getTransactionReceipt
    getBlockByNumber fuel n chainId disk = Some disk' ->
  disk' = disk ++ [("blockAndReceipts"%string,
                    ByNumber chainId (number (getBlockByNumber chainId n)))].
Proof.
  intros -> . unfold awaitListenerBlockAndReceipts.
  assert (forall txs rs ws,
            getReceipts true eth_getTransactionReceipt fuel txs chainId
            = Some (rs, ws) -> ws = []) as Hnil.
  { induction txs as [|t txs IH]; intros rs ws; simpl; [by intros [= _ <-]|].
    unfold getReceipt.
    destruct (getTransactionReceipt _ _ _ t) as [r|]; [|discriminate].
    destruct (truthy (transactionHash r)); [|discriminate].
    destruct (getReceipts _ _ _ txs _) as [[rs' ws']|] eqn:E; [|discriminate].
    intros [= _ <-]. simpl. eauto. }
  destruct (getReceipts _ _ _ _ _) as [[rs ws]|] eqn:E; [|discriminate].
  apply Hnil in E as ->. simpl. rewrite app_nil_r. by intros [= <-].
Qed.

End facts.

(** A block of two transactions, from a provider whose first answer to each
    receipt request fails: with [cleanup] the combined file alone, without it
    the two transaction files, the block file and the combined file. *)
Lemma staging_files_witness :
  let provider (h : string) (try : nat) :=
    match try with O => None | S _ => Some h end in
  let blocks (_ n : Z) := mkBlock n [mkTx "0xaa"; mkTx "0xbb"] in
  Forall (fun t => is_Some (getTransactionReceipt provider 3 0 t))
    (transactions (blocks 1 7)) /\
  awaitListenerBlockAndReceipts true provider blocks 3 7 1 []
  = Some [("blockAndReceipts"%string, ByNumber 1 7)] /\
  awaitListenerBlockAndReceipts false provider blocks 3 7 1 []
  = Some [("transactions"%string, ByHash 1 "0xaa");
          ("transactions"%string, ByHash 1 "0xbb");
          ("blocks"%string, ByNumber 1 7);
          ("blockAndReceipts"%string, ByNumber 1 7)].
Proof.
  cbn zeta.
  assert (Forall (fun t => is_Some
                    (getTransactionReceipt
                       (fun (h : string) (try : nat) =>
                          match try with O => None | S _ => Some h end) 3 0 t))
            [mkTx "0xaa"; mkTx "0xbb"]) as H.
  { repeat constructor; by eexists. }
  split; [exact H|]. split.
  - destruct (staging_files true _ (fun _ n => mkBlock n [mkTx "0xaa"; mkTx "0xbb"])
                3 7 1 [] H) as (receipts & _ & ->). reflexivity.
  - destruct (staging_files false _ (fun _ n => mkBlock n [mkTx "0xaa"; mkTx "0xbb"])
                3 7 1 [] H) as (receipts & Htx & Hfiles).
    rewrite Hfiles. clear Hfiles. cbn [transactions] in Htx.
    apply Forall2_cons_inv_l in Htx as (r1 & rs & [= <-] & Htx & ->).
    apply Forall2_cons_inv_l in Htx as (r2 & rs' & [= <-] & Htx & ->).
    apply Forall2_nil_inv_l in Htx as ->. reflexivity.
Defined.

End StagingFacts.

(** ** Keys *)

Module KeyFacts.

Lemma split_dot_nonempty s : split_dot s <> [].
Proof.
  destruct s as [|c r]; simpl; [done|].
  destruct (Ascii.eqb c "."); [done|]. by destruct (split_dot r).
Qed.

Lemma split_dot_free s : dot_free s = true -> split_dot s = [s].
Proof.
  induction s as [|c r IH]; simpl; [done|].
  destruct (Ascii.eqb c "."); simpl; [done|].
  intros Hr. by rewrite IH.
Qed.


Lemma truthy_app s t : truthy s = true -> truthy (s +:+ t) = true.
Proof. by destruct s. Qed.



End KeyFacts.

(** ** Reading back what was written *)

Module RoundTrips.
Import OrderFacts GetFacts BatchFacts WriteFacts KeyFacts.







(** *** What a single write leaves alone *)










(** *** Upserts *)

Lemma bson_idem v : bson (bson v) = bson v.
Proof. by destruct v. Qed.

(** A stored value has, for a query, the fields the filter takes from it. *)
Lemma stored_bson_doc val k : stored (bson_doc val) k = bson (fld val k).
Proof.
  unfold stored, bson_doc, fld. rewrite lookup_fmap.
  destruct (val !! k); simpl; [apply bson_idem|done].
Qed.

(** A value that carries the id of its key matches the filter of its own
    upsert once stored. *)
Lemma put_filter_own is_mutable ref id val :
  val !! "id"%string = Some (JStr id) ->
  matches (put_filter is_mutable ref (JStr id) val) (bson_doc val) = true.
Proof.
  intros Hid. unfold put_filter, matches.
  assert (stored (bson_doc val) "id" = bson (JStr id)) as Hown.
  { rewrite stored_bson_doc. unfold fld. by rewrite Hid. }
  destruct (is_mutable || String.eqb ref META); cbn [forallb fst snd];
    rewrite Hown, ?stored_bson_doc; by rewrite !bool_decide_eq_true_2 by done.
Qed.


(** [replaceOne] with [upsert] changes one matching document or, when none
    matches, adds one at the end. *)
Lemma replaceOne_shape f val docs :
  (exists before d after,
     docs = before ++ d :: after /\ matches f d = true /\
     Forall (fun e => matches f e = false) before /\
     replaceOne f val docs = before ++ bson_doc val :: after) \/
  (Forall (fun e => matches f e = false) docs /\
   replaceOne f val docs = docs ++ [bson_doc val]).
Proof.
  unfold replaceOne. induction docs as [|d docs IH]; simpl.
  - right. split; [constructor|done].
  - destruct (matches f d) eqn:Hd.
    + left. exists [], d, docs. repeat split; [done|constructor].
    + destruct IH as [(before & e & after & -> & He & Hb & IH)|[Hnone IH]].
      * left. exists (d :: before), e, after.
        split; [done|]. split; [done|]. split; [by constructor|].
        destruct (replace_first f (bson_doc val) (before ++ e :: after));
          simpl in *; congruence.
      * right. split; [by constructor|].
        destruct (replace_first f (bson_doc val) docs); simpl in *;
          congruence.
Qed.

Lemma replaceOne_idem f val docs :
  matches f (bson_doc val) = true ->
  replaceOne f val (replaceOne f val docs) = replaceOne f val docs.
Proof.
  intros Hown.
  assert (forall before after,
            Forall (fun e => matches f e = false) before ->
            replaceOne f val (before ++ bson_doc val :: after)
            = before ++ bson_doc val :: after) as Hfix.
  { intros before after Hb. unfold replaceOne.
    induction Hb as [|e before He _ IH]; simpl; [by rewrite Hown|].
    rewrite He. destruct (replace_first _ _ _); simpl in *; congruence. }
  destruct (replaceOne_shape f val docs)
    as [(before & d & after & _ & _ & Hb & ->)|[Hnone ->]].
  - by apply Hfix.
  - replace (docs ++ [bson_doc val]) with (docs ++ bson_doc val :: []) by done.
    by apply Hfix.
Qed.

Lemma kv_set_idem ref id val (k : gmap string (gmap string doc)) :
  kv_set ref id val (kv_default ref (kv_set ref id val (kv_default ref k)))
  = kv_set ref id val (kv_default ref k).
Proof.
  apply map_eq. intros c. unfold kv_set.
  destruct (decide (ref = c)) as [<-|Hne].
  - rewrite !lookup_alter_eq, !kv_default_lookup, !decide_True by done.
    rewrite lookup_alter_eq, kv_default_lookup, decide_True by done.
    simpl. by rewrite insert_insert_eq.
  - rewrite !lookup_alter_ne, !kv_default_lookup, !decide_False by done.
    by rewrite lookup_alter_ne, kv_default_lookup, decide_False by done.
Qed.

(** X5. Putting the same value twice under a key [ref.id] leaves the hot
    cache and the documents of every collection as putting it once does, in
    mutable and in immutable mode, when the value carries the id of its
    key. *)
Theorem put_twice key ref id val m :
  ref_id_key key ref id ->
  val !! "id"%string = Some (JStr id) ->
  let once := snd (put key val m) in
  let twice := snd (put key val once) in
  kv twice = kv once /\
  forall c, collection twice c = collection once c.
Proof.
  intros Hk Hid. cbn zeta. split.
  - rewrite !(put_kv key ref id) by done. apply kv_set_idem.
  - intros c. rewrite (put_collection c key ref id _ (snd (put key val m))) by done.
    destruct (put_flags key val m) as [-> ->].
    rewrite (put_collection c key ref id) by done.
    destruct (readOnly (engine m)); [done|].
    destruct (decide (ref = c)); [|done].
    apply replaceOne_idem. by apply put_filter_own.
Qed.

Lemma put_twice_witness :
  let v : doc := {["id"%string := JStr "id1"; "data"%string := JStr "v"]} in
  let m := mkMongo ∅ (mkEngine false false false) true ∅ [] in
  (ref_id_key "c.id1" "c" "id1" /\ v !! "id"%string = Some (JStr "id1")) /\
  collection (snd (put "c.id1" v (snd (put "c.id1" v m)))) "c" = [v].
Proof.
  cbn zeta.
  assert (ref_id_key "c.id1" "c" "id1") as Hk by (split; [by exists []|done]).
  split; [split; [exact Hk|reflexivity]|].
  refine (eq_trans
            (proj2 (put_twice "c.id1" "c" "id1"
                      {["id"%string := JStr "id1"; "data"%string := JStr "v"]}
                      (mkMongo ∅ (mkEngine false false false) true ∅ [])
                      Hk eq_refl) "c"%string) _).
  by vm_compute.
Defined.



(** *** Reading through *)





(** X8. Where the engine does not read the database for a ref ([newDb] set,
    or [warmDb] set and the ref not [__meta__]), [get] of any key of that ref
    depends on the hot cache alone: the documents stored make no
    difference. *)
Theorem get_skips_database key k e is_mutable d d' ws ws' :
  reads_db (mkMongo k e is_mutable d ws) (hd EmptyString (split_dot key)) = false ->
  get key (mkMongo k e is_mutable d ws) = get key (mkMongo k e is_mutable d' ws').
Proof.
  unfold reads_db, get. cbn [engine kv mutable]. intros ->.
  by rewrite !andb_false_r.
Qed.

Lemma get_skips_database_witness :
  let stored_a : doc := {["id"%string := JStr "a"]} in
  reads_db (mkMongo ∅ (mkEngine false true false) false
              {["c"%string := [stored_a]]} [])
    (hd EmptyString (split_dot "c.a")) = false /\
  get "c.a" (mkMongo ∅ (mkEngine false true false) false
               {["c"%string := [stored_a]]} []) = NotFound.
Proof.
  cbn zeta. split; [reflexivity|].
  refine (eq_trans
            (get_skips_database "c.a" ∅ (mkEngine false true false) false
               {["c"%string := [{["id"%string := JStr "a"]}]]} ∅ [] [] eq_refl) _).
  reflexivity.
Defined.



(** X10. Where the engine reads the database for a ref, [get] of the bare ref
    scans the collection and never looks at the hot cache: a value put in
    [readOnly] mode, which is cached and not stored, does not change what the
    scan returns. *)
Theorem scan_misses_readOnly_puts ref key val m :
  dot_free ref = true -> truthy ref = true ->
  reads_db m ref = true ->
  readOnly (engine m) = true ->
  get ref (snd (put key val m)) = get ref m.
Proof.
  intros Hfree Htrue Hreads Hro.
  assert (forall m', engine m' = engine m -> mutable m' = mutable m ->
            db m' = db m -> get ref m' = get ref m) as Hsame.
  { intros m' He Hm Hd. unfold get, collection.
    rewrite (split_dot_free ref Hfree).
    cbn [hd lookup list_lookup truthy_opt]. rewrite Htrue. cbn [andb negb].
    unfold reads_db in Hreads. by rewrite He, Hm, Hd, Hreads. }
  apply Hsame; try apply put_flags.
  unfold put. cbn. rewrite Hro. by destruct (truthy _ && truthy_opt _).
Qed.

Lemma scan_misses_readOnly_puts_witness :
  let old : doc := {["id"%string := JStr "a"]} in
  let m := mkMongo ∅ (mkEngine false false true) true {["c"%string := [old]]} [] in
  (dot_free "c" = true /\ truthy "c" = true /\ reads_db m "c" = true /\
   readOnly (engine m) = true) /\
  get "c" (snd (put "c.b" {["id"%string := JStr "b"]} m)) = FoundAll [old].
Proof.
  cbn zeta. split; [by repeat split|].
  refine (eq_trans
            (scan_misses_readOnly_puts "c" "c.b" {["id"%string := JStr "b"]}
               (mkMongo ∅ (mkEngine false false true) true
                  {["c"%string := [{["id"%string := JStr "a"]}]]} [])
               eq_refl eq_refl eq_refl eq_refl) _).
  by vm_compute.
Defined.



End RoundTrips.

(** ** Batches, read back *)

Module BatchReads.
Import GetFacts BatchFacts WriteFacts RoundTrips.

Lemma replacement_without_id v : replacement_of v !! "_id"%string = None.
Proof.
  unfold replacement_of. rewrite !lookup_insert_ne by done.
  apply lookup_delete_eq.
Qed.

Lemma bulk_of_without_id is_mutable c val : without_id (bulk_of is_mutable c val).
Proof.
  unfold bulk_of. destruct (type val); simpl; [apply replacement_without_id|done].
Qed.




Lemma elem_of_writes_to w ws : w ∈ ws <-> w ∈ writes_to (write_collection w) ws.
Proof. unfold writes_to. rewrite list_elem_of_filter. tauto. Qed.

(** X13. No [bulkWrite] that [batch] issues carries an [_id] in a replacement
    document: every write in the log after a batch was there before or is a
    [bulkWrite] whose replacements are all without [_id]. *)
Theorem batch_strips_id vals m :
  Forall (fun w => w ∈ writes m \/
                   exists c ops, w = WBulkWrite c ops /\ Forall without_id ops)
    (writes (snd (batch vals m))).
Proof.
  apply Forall_forall. intros w Hw. apply elem_of_writes_to in Hw.
  change (writes_to (write_collection w) (writes (snd (batch vals m))))
    with (snd (view (write_collection w) (snd (batch vals m)))) in Hw.
  rewrite batch_view in Hw. unfold run_ops in Hw. cbn [snd] in Hw.
  destruct (_ || _).
  - left. by apply elem_of_writes_to.
  - apply elem_of_app in Hw as [Hw|Hw]; [left; by apply elem_of_writes_to|].
    right. apply elem_of_cons in Hw as [->|Hw]; [|by apply elem_of_nil in Hw].
    eexists _, _. split; [done|].
    apply Forall_fmap, Forall_forall. intros val _.
    apply bulk_of_without_id.
Qed.



End BatchReads.

(** ** The queue and the dispatcher *)

Module QueueFacts.
Import Listener Listening ListenerFacts.

Section facts.

Variable indexedMigrations : gmap (Z * Z) (list Migration).
Variable processListenerBlock : Z -> Z -> gmap Z Z -> bool * gmap Z Z.

Lemma staged_for_mono s s' e :
  staging s `prefix_of` staging s' -> staged_for s e -> staged_for s' e.
Proof. unfold staged_for. intros Hp He. by eapply prefix_lookup_Some. Qed.

Lemma queue_staged_record n c s :
  queue_staged s -> queue_staged (recordListenerBlock indexedMigrations n c s).
Proof.
  unfold queue_staged, recordListenerBlock, saveListenerBlockAndReceipts.
  cbn. intros Hq. apply Forall_app. split.
  - eapply Forall_impl; [exact Hq|]. intros e He.
    eapply staged_for_mono; [|exact He]. cbn. by apply prefix_app_r.
  - constructor; [|constructor]. unfold staged_for. cbn.
    by rewrite list_lookup_middle.
Qed.

Lemma queue_staged_restack n c entities s :
  queue_staged s -> queue_staged (restackListenerBlock n c entities s).
Proof.
  unfold queue_staged, restackListenerBlock, saveListenerBlockAndReceipts.
  cbn. intros Hq. constructor.
  - unfold staged_for. cbn. by rewrite list_lookup_middle.
  - eapply Forall_impl; [exact Hq|]. intros e He.
    eapply staged_for_mono; [|exact He]. cbn. by apply prefix_app_r.
Qed.

Lemma queue_staged_close_gap fuel : forall l h c s,
  queue_staged s -> queue_staged (close_gap indexedMigrations fuel l h c s).
Proof.
  induction fuel as [|fuel IH]; intros l h c s Hq; cbn [close_gap]; [done|].
  destruct (l =? h); [done|]. by apply IH, queue_staged_record.
Qed.

Lemma queue_staged_processing n c entities vals s :
  queue_staged s ->
  queue_staged (startProcessingBlock processListenerBlock n c entities vals s).
Proof.
  intros Hq. unfold startProcessingBlock.
  destruct (processListenerBlock n c (latestBlocks s)) as [threw latest].
  cbn [fst snd].
  assert (queue_staged
            (mkState (blockQueue s) latest (startBlocks s) (staging s)
               (reads s) (timers s) (processed s ++ [(n, c)]))) as Hq'
    by exact Hq.
  destruct threw; [by apply queue_staged_restack|].
  destruct vals as [[b [|]]|]; cbn [cancelled];
    [by apply queue_staged_restack|done|done].
Qed.

(** X15. Every entry of the block queue waits for a staging call that was
    issued for its own block and chain. [recordListenerBlock],
    [restackListenerBlock] and [attemptNextBlock] keep it so, whatever the
    handlers and the staged data do, and the entry [attemptNextBlock] hands to
    processing is such an entry. *)
Theorem queue_waits_for_own_staging s :
  queue_staged s ->
  (forall n c, queue_staged (recordListenerBlock indexedMigrations n c s)) /\
  (forall n c entities, queue_staged (restackListenerBlock n c entities s)) /\
  (forall vals e r s',
     attemptNextBlock indexedMigrations processListenerBlock vals s
     = Some (e, r, s') ->
     staged_for s e /\ queue_staged s').
Proof.
  intros Hq. split; [intros; by apply queue_staged_record|].
  split; [intros; by apply queue_staged_restack|].
  intros vals e r s'. unfold attemptNextBlock.
  destruct (blockQueue s) as [|head q] eqn:Hs; [discriminate|].
  destruct (latestBlocks s !! chainId head) as [latest|]; [|discriminate].
  set (s1 := if 1 <? Listener.number head - latest then _ else s).
  assert (queue_staged s1 /\ exists added, blockQueue s1 = head :: q ++ added)
    as [Hq1 [added Hs1]].
  { subst s1. destruct (1 <? Listener.number head - latest).
    - split; [by apply queue_staged_close_gap|].
      destruct (close_gap_prefix indexedMigrations
                  (Z.to_nat (Listener.number head - latest)) latest
                  (Listener.number head) (chainId head) s) as [added Ha].
      exists added. by rewrite Ha, Hs.
    - split; [done|]. exists []. by rewrite app_nil_r. }
  rewrite Hs1. intros [= <- <- <-]. split.
  - unfold queue_staged in Hq. rewrite Hs in Hq.
    by apply Forall_cons in Hq as [? _].
  - unfold queue_staged in Hq1. rewrite Hs1 in Hq1.
    apply Forall_cons in Hq1 as [_ Hrest].
    unfold processListenerBlockSafely.
    destruct (guard _ _ _) as [[|]|]; cbn [snd]; [|exact Hrest|exact Hrest].
    apply queue_staged_processing. exact Hrest.
Qed.

End facts.

Lemma queue_waits_for_own_staging_witness :
  let s := mkState [mkEntry 105 1 0 []] {[1 := 100]} {[1 := 1]} [(105, 1)]
             [] [] [] in
  queue_staged s /\
  queue_staged (recordListenerBlock ∅ 106 1 s).
Proof.
  cbn zeta.
  assert (queue_staged
            (mkState [mkEntry 105 1 0 []] {[1 := 100]} {[1 := 1]} [(105, 1)]
               [] [] [])) as Hq.
  { constructor; [reflexivity|constructor]. }
  split; [exact Hq|].
  exact (proj1 (queue_waits_for_own_staging ∅ advancingProcessListenerBlock
                  _ Hq) 106 1).
Defined.

End QueueFacts.

(** ** Listener events, the migration index and blocks in sequence *)

Module DispatchFacts.
Import Listener Listening ListenerFacts.

Lemma indexMigrations_snoc ms m :
  indexMigrations (ms ++ [m])
  = <[(m_chainId m, m_blockNumber m) :=
        default [] (indexMigrations ms !! (m_chainId m, m_blockNumber m))
        ++ [m]]> (indexMigrations ms).
Proof. unfold indexMigrations. by rewrite foldl_snoc. Qed.

Lemma scheduled_at_snoc c n ms m :
  scheduled_at c n (ms ++ [m])
  = scheduled_at c n ms
    ++ (if decide (m_chainId m = c /\ m_blockNumber m = n) then [m] else []).
Proof.
  unfold scheduled_at. rewrite filter_app. f_equal.
Qed.

Lemma indexMigrations_scheduled ms : forall c n,
  indexMigrations ms !! (c, n)
  = match scheduled_at c n ms with
    | [] => None
    | scheduled => Some scheduled
    end.
Proof.
  induction ms as [|m ms IH] using rev_ind; intros c n; [done|].
  rewrite indexMigrations_snoc, scheduled_at_snoc.
  destruct (decide (m_chainId m = c /\ m_blockNumber m = n)) as [[<- <-]|Hne].
  - rewrite lookup_insert_eq, IH.
    destruct (scheduled_at _ _ ms) as [|m' l]; [done|].
    cbn [default from_option app]. reflexivity.
  - rewrite lookup_insert_ne by (intros [= ? ?]; by apply Hne).
    rewrite app_nil_r. apply IH.
Qed.

(** X16. The index built by [attachListeners] groups the migrations by chain
    and block: the entry of a chain and block is the list of the migrations
    scheduled there, in the order they were given, and there is no entry where
    none is scheduled. [recordListenerBlock] numbers the entities of a block
    by position in that list. *)
Theorem indexMigrations_groups migrations c n :
  (forall scheduled,
     indexMigrations migrations !! (c, n) = Some scheduled <->
     scheduled <> [] /\ scheduled = scheduled_at c n migrations) /\
  migrationEntities (indexMigrations migrations) n c
  = imap (fun key migration => (key, entity migration))
      (scheduled_at c n migrations).
Proof.
  split.
  - intros scheduled. rewrite indexMigrations_scheduled.
    destruct (scheduled_at c n migrations) as [|m l].
    + split; [discriminate|]. by intros [? ->].
    + split; [by intros [= <-]|]. by intros [_ ->].
  - unfold migrationEntities. rewrite indexMigrations_scheduled.
    by destruct (scheduled_at c n migrations).
Qed.

Section facts.

Variable indexedMigrations : gmap (Z * Z) (list Migration).
Variable processListenerBlock : Z -> Z -> gmap Z Z -> bool * gmap Z Z.

(** X17. A listener that is not listening leaves everything as it is. A
    listening one queues the blocks of its events in the order of the events,
    behind what is queued, with one staging call per event and the chain of
    the listener on each entry; the blocks processed so far are untouched. *)
Theorem listener_queues_in_order c events : forall s,
  foldl (createListener indexedMigrations false c) s events = s /\
  let s' := foldl (createListener indexedMigrations true c) s events in
  blockQueue s'
  = blockQueue s
    ++ imap (fun i n => mkEntry n c (length (staging s) + i)
                          (migrationEntities indexedMigrations n c)) events /\
  staging s' = staging s ++ ((fun n => (n, c)) <$> events) /\
  latestBlocks s' = latestBlocks s /\
  processed s' = processed s.
Proof.
  induction events as [|n events IH]; intros s.
  - cbn. by rewrite !app_nil_r.
  - cbn [foldl]. split; [exact (proj1 (IH s))|].
    destruct (IH (createListener indexedMigrations true c s n))
      as (_ & Hq & Hst & Hl & Hp).
    cbn zeta in *. rewrite Hq, Hst, Hl, Hp.
    unfold createListener, recordListenerBlock, saveListenerBlockAndReceipts.
    cbn [blockQueue staging latestBlocks processed set_queue fst snd].
    rewrite <- !app_assoc, length_app.
    cbn [length app imap fmap list_fmap].
    repeat split. f_equal. f_equal; [f_equal; lia|].
    apply imap_ext. intros i x _. cbn. f_equal. lia.
Qed.

(** X18. A queued block older than the last processed block of its chain is
    taken off the queue and dropped: no gap is closed, nothing is read or
    handed to the handlers, and the rest of the queue is what remains. *)
Theorem stale_block_is_dropped vals s head rest latest :
  blockQueue s = head :: rest ->
  latestBlocks s !! chainId head = Some latest ->
  Listener.number head < latest ->
  attemptNextBlock indexedMigrations processListenerBlock vals s
  = Some (head, Skipped, set_queue rest s).
Proof.
  intros Hq Hl Hlt. unfold attemptNextBlock. rewrite Hq, Hl.
  destruct (Z.ltb_spec 1 (Listener.number head - latest)); [lia|].
  rewrite Hq. unfold processListenerBlockSafely, guard. cbn [latestBlocks
    startBlocks set_queue].
  destruct (startBlocks s !! chainId head) as [start|]; [|done].
  destruct (start =? 0); [done|].
  destruct (negb (start <=? Listener.number head)); [done|].
  rewrite Hl. by destruct (Z.leb_spec latest (Listener.number head)); [lia|].
Qed.

Lemma fmap_seq_succ {A} (f : nat -> A) k :
  f <$> seq 0 (S k) = f 0%nat :: ((fun i => f (S i)) <$> seq 0 k).
Proof. cbn [seq fmap list_fmap]. f_equal. by rewrite <- fmap_S_seq, <- list_fmap_compose. Qed.

(** X19. When the handlers do not throw and leave the block they were given
    as the last processed block of its chain, a queue holding the [k] blocks
    that follow the last processed one, in sequence and at or above the start
    block, is worked off front to back by the dispatcher: each block is
    processed once, in ascending order, nothing is restacked or staged again,
    the queue ends empty and the last processed block is the last of the
    queue. *)
Theorem blocks_in_sequence_processed_in_order k : forall latest c start rounds s,
  (forall n c' l, processListenerBlock n c' l = (false, <[c' := n]> l)) ->
  Forall (fun e => chainId e = c) (blockQueue s) ->
  Listener.number <$> blockQueue s
  = (fun i => latest + 1 + Z.of_nat i) <$> seq 0 k ->
  latestBlocks s !! c = Some latest ->
  startBlocks s !! c = Some start -> start <> 0 -> start <= latest + 1 ->
  (k <= length rounds)%nat -> Forall not_cancelled rounds ->
  let s' := dispatch indexedMigrations processListenerBlock rounds s in
  processed s'
  = processed s ++ ((fun i => (latest + 1 + Z.of_nat i, c)) <$> seq 0 k) /\
  blockQueue s' = [] /\
  latestBlocks s' !! c = Some (latest + Z.of_nat k) /\
  staging s' = staging s.
Proof.
  induction k as [|k IH];
    intros latest c start rounds s Hp Hc Hn Hl Hs Hs0 Hsl Hlen Hr; cbn zeta.
  - apply fmap_nil_inv in Hn.
    assert (dispatch indexedMigrations processListenerBlock rounds s = s)
      as ->.
    { destruct rounds as [|vals rounds]; [done|].
      cbn [dispatch]. unfold attemptNextBlock. by rewrite Hn. }
    rewrite app_nil_r, Z.add_0_r. done.
  - destruct rounds as [|vals rounds]; [cbn in Hlen; lia|].
    rewrite fmap_seq_succ in Hn.
    destruct (blockQueue s) as [|e q] eqn:Hq; [done|].
    cbn [fmap list_fmap] in Hn. injection Hn as Hne Hnq.
    apply Forall_cons in Hc as [Hce Hcq].
    apply Forall_cons in Hr as [Hv Hr].
    rewrite Z.add_0_r in Hne.
    cbn [dispatch]. unfold attemptNextBlock. rewrite Hq, Hce, Hl.
    destruct (Z.ltb_spec 1 (Listener.number e - latest)); [lia|].
    rewrite Hq. unfold processListenerBlockSafely.
    assert (guard (Listener.number e) c (set_queue q s) = Some true) as ->.
    { apply guard_true. exists start, latest. cbn. repeat split; auto; lia. }
    cbn [fst snd]. unfold startProcessingBlock. rewrite Hp. cbn [fst snd].
    set (s1 := mkState _ _ _ _ _ _ _).
    assert ((match vals with
             | Some parts =>
                 if cancelled parts
                 then restackListenerBlock (Listener.number e) c
                        (asyncEntities e) s1
                 else s1
             | None => s1
             end) = s1) as ->.
    { destruct vals as [parts|]; [|done]. by rewrite (Hv parts eq_refl). }
    destruct (IH (latest + 1) c start rounds s1) as (Hp1 & Hq1 & Hl1 & Hst1);
      try done.
    + subst s1. cbn. rewrite Hnq. apply list_fmap_ext. intros; lia.
    + subst s1. cbn. rewrite Hne. by rewrite lookup_insert_eq.
    + lia.
    + cbn in Hlen. lia.
    + cbn zeta in *. rewrite Hp1, Hq1, Hl1, Hst1, fmap_seq_succ. subst s1.
      cbn [processed staging]. rewrite <- app_assoc, Hne, Z.add_0_r.
      cbn [app]. repeat split; [|f_equal; lia].
      do 2 f_equal. apply list_fmap_ext. intros. f_equal. lia.
Qed.

End facts.

Lemma stale_block_is_dropped_witness :
  let s := mkState [mkEntry 99 1 0 []; mkEntry 101 1 1 []] {[1 := 100]}
             {[1 := 1]} [(99, 1); (101, 1)] [] [] [] in
  attemptNextBlock ∅ advancingProcessListenerBlock None s
  = Some (mkEntry 99 1 0 [], Skipped, set_queue [mkEntry 101 1 1 []] s).
Proof.
  cbn zeta.
  apply (stale_block_is_dropped ∅ advancingProcessListenerBlock None
           (mkState [mkEntry 99 1 0 []; mkEntry 101 1 1 []] {[1 := 100]}
              {[1 := 1]} [(99, 1); (101, 1)] [] [] [])
           (mkEntry 99 1 0 []) [mkEntry 101 1 1 []] 100);
    [reflexivity|reflexivity|cbn; lia].
Defined.

Lemma blocks_in_sequence_processed_in_order_witness :
  let s := mkState [mkEntry 101 1 0 []; mkEntry 102 1 1 []] {[1 := 100]}
             {[1 := 1]} [(101, 1); (102, 1)] [] [] [] in
  let s' := dispatch ∅ advancingProcessListenerBlock
              [Some (mkParts (Some 101) false); None] s in
  processed s' = [(101, 1); (102, 1)] /\
  blockQueue s' = [] /\
  latestBlocks s' !! 1 = Some 102 /\
  staging s' = [(101, 1); (102, 1)].
Proof.
  cbn zeta.
  apply (blocks_in_sequence_processed_in_order ∅
           advancingProcessListenerBlock 2 100 1 1
           [Some (mkParts (Some 101) false); None]
           (mkState [mkEntry 101 1 0 []; mkEntry 102 1 1 []] {[1 := 100]}
              {[1 := 1]} [(101, 1); (102, 1)] [] [] [])).
  - reflexivity.
  - repeat constructor.
  - reflexivity.
  - reflexivity.
  - reflexivity.
  - lia.
  - lia.
  - cbn. lia.
  - constructor; [|constructor; [|constructor]].
    + intros parts [= <-]. reflexivity.
    + intros parts H. discriminate H.
Defined.

End DispatchFacts.

(** ** Fetching a receipt *)

Module FetchFacts.
Import Staging Fetching.

Section facts.

Variable cleanup : bool.
Variable eth_getTransactionReceipt : string -> nat -> option string.

(** Tries that do not pass the test are gone through one by one. *)
Lemma getTransactionReceipt_skip k : forall fuel try t,
  (forall j, (j < k)%nat ->
     acceptable (eth_getTransactionReceipt (hash t) (try + j)) t = false) ->
  getTransactionReceipt eth_getTransactionReceipt (k + fuel) try t
  = getTransactionReceipt eth_getTransactionReceipt fuel (k + try) t.
Proof.
  induction k as [|k IH]; intros fuel try t Hk; [done|].
  cbn [Nat.add getTransactionReceipt].
  pose proof (Hk 0%nat ltac:(lia)) as H0. rewrite Nat.add_0_r in H0.
  assert (getTransactionReceipt eth_getTransactionReceipt (k + fuel) (S try) t
          = getTransactionReceipt eth_getTransactionReceipt fuel
              (S (k + try)) t) as Hrest.
  { rewrite IH; [by rewrite Nat.add_succ_r|].
    intros j Hj. specialize (Hk (S j) ltac:(lia)).
    by rewrite Nat.add_succ_r in Hk. }
  destruct (eth_getTransactionReceipt (hash t) try) as [h|]; [|exact Hrest].
  cbn [acceptable] in H0. rewrite H0. exact Hrest.
Qed.

(** X20. [getTransactionReceipt] asks the provider again after every failed
    call and every receipt without a [transactionHash], and returns the
    transaction merged with the first receipt that carries one: it takes
    exactly the tries up to that answer, and [getReceipt] then returns that
    receipt, having saved it under [transactions/<chainId>-<hash>] unless
    [flags.cleanup] is set. *)
Theorem receipt_is_first_acceptable_answer k fuel t h chainId :
  (forall j, (j < k)%nat ->
     acceptable (eth_getTransactionReceipt (hash t) j) t = false) ->
  eth_getTransactionReceipt (hash t) k = Some h ->
  acceptable (Some h) t = true ->
  (k < fuel)%nat ->
  getTransactionReceipt eth_getTransactionReceipt k 0 t = None /\
  getTransactionReceipt eth_getTransactionReceipt fuel 0 t
  = Some (mkReceipt t h) /\
  getReceipt cleanup eth_getTransactionReceipt fuel t chainId
  = Some (mkReceipt t h,
          if cleanup then []
          else [("transactions"%string, ByHash chainId h)]).
Proof.
  intros Hk Hh Hok Hlt.
  assert (getTransactionReceipt eth_getTransactionReceipt fuel 0 t
          = Some (mkReceipt t h)) as Hget.
  { replace fuel with (k + S (fuel - S k))%nat by lia.
    rewrite getTransactionReceipt_skip by exact Hk.
    cbn [getTransactionReceipt]. rewrite Nat.add_0_r, Hh.
    cbn [acceptable] in Hok. by rewrite Hok. }
  split; [|split; [exact Hget|]].
  - replace k with (k + 0)%nat at 1 by lia.
    by rewrite getTransactionReceipt_skip by exact Hk.
  - unfold getReceipt. rewrite Hget. cbn [transactionHash].
    cbn [acceptable] in Hok. apply andb_true_iff in Hok as [-> _].
    by destruct cleanup.
Qed.

End facts.

Lemma receipt_is_first_acceptable_answer_witness :
  let eth := fun (_ : string) (try : nat) =>
               match try with
               | 0%nat => None
               | 1%nat => Some EmptyString
               | _ => Some "0xr"%string
               end in
  getTransactionReceipt eth 2 0 (mkTx "0xt") = None /\
  getTransactionReceipt eth 5 0 (mkTx "0xt")
  = Some (mkReceipt (mkTx "0xt") "0xr") /\
  getReceipt false eth 5 (mkTx "0xt") 1
  = Some (mkReceipt (mkTx "0xt") "0xr",
          [("transactions"%string, ByHash 1 "0xr")]).
Proof.
  cbn zeta.
  apply (receipt_is_first_acceptable_answer false
           (fun (_ : string) (try : nat) =>
              match try with
              | 0%nat => None
              | 1%nat => Some EmptyString
              | _ => Some "0xr"%string
              end) 2 5 (mkTx "0xt") "0xr" 1).
  - intros [|[|j]] Hj; [reflexivity|reflexivity|lia].
  - reflexivity.
  - reflexivity.
  - lia.
Defined.

End FetchFacts.

(** ** The operations of a chain *)

Module SyncFacts.
Import Listening.

Section facts.

Context {Sync : Type}.
Variable chainId_of : Sync -> Z.

(** X21. [getValidSyncOps] has an entry for exactly the chains that have a
    provider, and the entry of a chain lists the operations of that chain, all
    of them and no other, in the order of [engine.syncs]; a chain without
    operations gets the empty list, and an operation on a chain without a
    provider is in no entry. *)
Theorem getValidSyncOps_by_chain syncProviders (syncs : list Sync) c :
  getValidSyncOps chainId_of syncProviders syncs !! c
  = if decide (c ∈ syncProviders)
    then Some (filter (fun op => chainId_of op = c) syncs)
    else None.
Proof.
  unfold getValidSyncOps.
  induction syncProviders as [|p ps IH] using rev_ind.
  - cbn. by rewrite lookup_empty.
  - rewrite fmap_app.
    change ((fun chainId : Z =>
               (chainId, filter (fun op => chainId_of op = chainId) syncs))
              <$> [p])
      with [(p, filter (fun op => chainId_of op = p) syncs)].
    rewrite foldl_snoc. cbn [fst snd].
    destruct (decide (p = c)) as [->|Hne].
    + rewrite lookup_insert_eq. rewrite decide_True; [done|set_solver].
    + rewrite lookup_insert_ne by done. rewrite IH.
      destruct (decide (c ∈ ps)) as [Hin|Hin].
      * rewrite decide_True; [done|set_solver].
      * rewrite decide_False; [done|set_solver].
Qed.

End facts.

End SyncFacts.
